(** * config_converter: the configuration parser and its TOML serializer

    A shallow embedding of [src/config_converter.py]: the class
    [ConfigParser] (clean_text, parse_value, parse_dict, parse) and the
    class [TOMLConverter] (escape_string, to_toml), with the part of
    Python's [str] and [re] that these methods call.

    Modelling choices, all taken from the source:
    - a Python [str] is a list of characters; a character is a code point
      below 256, so the character tables of [str.isspace], [str.isdigit] and
      [str.lower] are those of that range;
    - a parsed value is a Python object of one of the types the parser
      builds: [str], [int], [float], [bool], [list], [dict].  The source
      has one type [str] for quoted strings and for bare identifiers;
    - a [dict] keeps its keys in insertion order, assignment to a present key
      keeps the position of the key;
    - [int(...)] raises [ValueError] on a digit string that holds a
      superscript digit, which [str.isdigit] accepts;
    - a [float] is kept as the literal it was read from: the program only
      ever prints a float, and the printing of [float(literal)] is a
      parameter of the serializer;
    - the interpreter's recursion limit and its limit on the number of digits
      of an [int] literal are not modelled. *)

From Stdlib Require Import List String Ascii ZArith NArith Lia Bool Arith.
From Stdlib Require Import Sorting.Permutation Sorting.Sorted.
Import ListNotations.

Set Warnings "-register-all".

Open Scope string_scope.
Open Scope list_scope.

(** ** Python strings *)

Definition str := list ascii.

Coercion list_ascii_of_string : string >-> list.

Module PyStr.

Definition ord (c : ascii) : N := N_of_ascii c.

Definition dquote : ascii := "034"%char.
Definition squote : ascii := "039"%char.
Definition newline : ascii := "010"%char.
Definition backslash : ascii := "092"%char.

(** [str.isspace] on one character. *)
Definition isspace (c : ascii) : bool :=
  let n := ord c in
  ((9 <=? n) && (n <=? 13) || (28 <=? n) && (n <=? 32)
   || (n =? 133) || (n =? 160))%N.

(** A decimal digit, as [int] and the class [\d] accept it. *)
Definition isdecimal (c : ascii) : bool :=
  let n := ord c in ((48 <=? n) && (n <=? 57))%N.

(** [str.isdigit] on one character: the decimal digits and the superscripts
    two, three and one. *)
Definition isdigit_char (c : ascii) : bool :=
  let n := ord c in
  (isdecimal c || (n =? 178) || (n =? 179) || (n =? 185))%N.

Definition isdigit (s : str) : bool :=
  match s with
  | [] => false
  | _ => forallb isdigit_char s
  end.

Definition lower_char (c : ascii) : ascii :=
  let n := ord c in
  if ((65 <=? n) && (n <=? 90)
      || (192 <=? n) && (n <=? 222) && negb (n =? 215))%N
  then ascii_of_N (n + 32) else c.

Definition lower (s : str) : str := map lower_char s.

Fixpoint str_eqb (a b : str) : bool :=
  match a, b with
  | [], [] => true
  | x :: a', y :: b' => Ascii.eqb x y && str_eqb a' b'
  | _, _ => false
  end.

Definition is_empty (s : str) : bool :=
  match s with [] => true | _ => false end.

Fixpoint lstrip (s : str) : str :=
  match s with
  | c :: s' => if isspace c then lstrip s' else s
  | [] => []
  end.

Fixpoint rstrip (s : str) : str :=
  match s with
  | [] => []
  | c :: s' =>
      match rstrip s' with
      | [] => if isspace c then [] else [c]
      | r => c :: r
      end
  end.

Definition strip (s : str) : str := lstrip (rstrip s).

Definition startswith (s : str) (c : ascii) : bool :=
  match s with
  | x :: _ => Ascii.eqb x c
  | [] => false
  end.

Fixpoint endswith (s : str) (c : ascii) : bool :=
  match s with
  | [] => false
  | [x] => Ascii.eqb x c
  | _ :: s' => endswith s' c
  end.

(** The slices [s[:-1]] and [s[1:-1]]. *)
Definition drop_last (s : str) : str := removelast s.
Definition inner (s : str) : str := removelast (tl s).

(** [c in s] for a one-character [c]. *)
Definition contains (c : ascii) (s : str) : bool :=
  existsb (Ascii.eqb c) s.

(** [s[:s.index(c)]] when [c] occurs in [s]. *)
Fixpoint before (c : ascii) (s : str) : str :=
  match s with
  | [] => []
  | x :: s' => if Ascii.eqb x c then [] else x :: before c s'
  end.

(** The text after the first [c], the second part of [s.split(c, 1)]. *)
Fixpoint after (c : ascii) (s : str) : str :=
  match s with
  | [] => []
  | x :: s' => if Ascii.eqb x c then s' else after c s'
  end.

(** [s.split(c)] for a one-character separator. *)
Fixpoint split (c : ascii) (s : str) : list str :=
  match s with
  | [] => [[]]
  | x :: s' =>
      if Ascii.eqb x c then [] :: split c s'
      else match split c s' with
           | w :: ws => (x :: w) :: ws
           | [] => [[x]]
           end
  end.

(** [sep.join(parts)]. *)
Fixpoint join (sep : str) (parts : list str) : str :=
  match parts with
  | [] => []
  | [p] => p
  | p :: ps => p ++ sep ++ join sep ps
  end.

(** Comparison of two strings by code points, the order of [list.sort]. *)
Fixpoint compare (a b : str) : comparison :=
  match a, b with
  | [], [] => Eq
  | [], _ :: _ => Lt
  | _ :: _, [] => Gt
  | x :: a', y :: b' =>
      match N.compare (ord x) (ord y) with
      | Eq => compare a' b'
      | o => o
      end
  end.

Definition leb (a b : str) : bool :=
  match compare a b with Gt => false | _ => true end.

Definition le (a b : str) : Prop := leb a b = true.

Definition lt (a b : str) : Prop := compare a b = Lt.

(** Decimal digits of a natural number, most significant first. *)
Definition digit_char (d : N) : ascii := ascii_of_N (48 + d).

Fixpoint digits_fuel (fuel : nat) (n : N) (acc : str) : str :=
  match fuel with
  | O => acc
  | S fuel' =>
      let acc' := digit_char (n mod 10) :: acc in
      if (n <? 10)%N then acc' else digits_fuel fuel' (n / 10) acc'
  end.

Definition str_of_N (n : N) : str := digits_fuel (S (N.to_nat (N.log2 n))) n [].

(** [str(n)] for an [int]. *)
Definition str_of_int (z : Z) : str :=
  match z with
  | Zneg p => "-"%char :: str_of_N (Npos p)
  | _ => str_of_N (Z.to_N z)
  end.

Definition digit_value (c : ascii) : N := ord c - 48.

(** The value of a string of decimal digits. *)
Definition step (acc : N) (c : ascii) : N := (acc * 10 + digit_value c)%N.

Definition N_of_digits (s : str) : N := fold_left step s 0%N.

Definition hex_char (d : N) : ascii :=
  if (d <? 10)%N then ascii_of_N (48 + d) else ascii_of_N (87 + d).

Fixpoint hex_fuel (fuel : nat) (n : N) (acc : str) : str :=
  match fuel with
  | O => acc
  | S fuel' =>
      let acc' := hex_char (n mod 16) :: acc in
      if (n <? 16)%N then acc' else hex_fuel fuel' (n / 16) acc'
  end.

(** [format(n, 'x')]. *)
Definition hex (n : N) : str := hex_fuel (S (N.to_nat (N.log2 n))) n [].

(** Left padding with the character zero up to a width, the [0w] of a
    format specification. *)
Definition zfill (width : nat) (s : str) : str :=
  repeat "0"%char (width - List.length s) ++ s.

End PyStr.

(** ** The regular expressions of module [re]

    A backtracking matcher for the constructs the source's three patterns
    use: literal characters, character classes, concatenation, the greedy
    quantifiers [*], [+] and [?], capturing groups, and the assertion [$].
    A quantifier tries the longest repetition first and gives characters
    back when the rest of the pattern fails, as [re] does. *)

Module Re.

Import PyStr.

Inductive regex : Type :=
| Eps
| Lit (c : ascii)
| Class (p : ascii -> bool)
| Cat (r1 r2 : regex)
| Star (r : regex)
| Opt (r : regex)
| Group (r : regex)
| Eos.

Definition Plus (r : regex) : regex := Cat r (Star r).

Fixpoint lits (s : str) : regex :=
  match s with
  | [] => Eps
  | c :: s' => Cat (Lit c) (lits s')
  end.

(** A successful match: the captured groups in the order they closed, and
    the text left after the match. *)
Definition found : Type := list str * str.

Fixpoint rmatch (r : regex) (s : str) (caps : list str)
    (k : str -> list str -> option found) {struct r} : option found :=
  match r with
  | Eps => k s caps
  | Lit c =>
      match s with
      | x :: s' => if Ascii.eqb x c then k s' caps else None
      | [] => None
      end
  | Class p =>
      match s with
      | x :: s' => if p x then k s' caps else None
      | [] => None
      end
  | Cat r1 r2 => rmatch r1 s caps (fun s1 caps1 => rmatch r2 s1 caps1 k)
  | Star r1 =>
      (fix star (n : nat) (s : str) (caps : list str) : option found :=
         match n with
         | O => k s caps
         | S n' =>
             match rmatch r1 s caps
                     (fun s1 caps1 =>
                        if Nat.ltb (List.length s1) (List.length s)
                        then star n' s1 caps1 else None) with
             | Some m => Some m
             | None => k s caps
             end
         end) (List.length s) s caps
  | Opt r1 =>
      match rmatch r1 s caps k with
      | Some m => Some m
      | None => k s caps
      end
  | Group r1 =>
      rmatch r1 s caps
        (fun s1 caps1 =>
           k s1 (caps1 ++ [firstn (List.length s - List.length s1) s]))
  | Eos =>
      match s with
      | [] => k s caps
      | [c] => if Ascii.eqb c newline then k s caps else None
      | _ => None
      end
  end.

(** A match of [r] that starts at the first character of [s]. *)
Definition match_here (r : regex) (s : str) : option found :=
  rmatch r s [] (fun rest caps => Some (caps, rest)).

(** [re.match(r, s)] as a truth value. *)
Definition matches (r : regex) (s : str) : bool :=
  match match_here r s with Some _ => true | None => false end.

(** The scan of [re.finditer] and [re.sub]: the matches are looked for from
    left to right and do not overlap; [skip] counts the characters of the
    last match that the scan is still inside of.  The scan yields, in order,
    each match and each character outside of every match.  The three
    patterns of the source match no empty text. *)
Inductive piece : Type :=
| Matched (caps : list str)
| Plain (c : ascii).

Fixpoint scan (r : regex) (s : str) (skip : nat) : list piece :=
  match s with
  | [] => []
  | c :: s' =>
      match skip with
      | S n => scan r s' n
      | O =>
          match match_here r s with
          | Some (caps, rest) =>
              match List.length s - List.length rest with
              | O => Matched caps :: Plain c :: scan r s' 0
              | S n => Matched caps :: scan r s' n
              end
          | None => Plain c :: scan r s' 0
          end
      end
  end.

(** The groups of every match of [re.finditer(r, s)], in order. *)
Definition finditer (r : regex) (s : str) : list (list str) :=
  flat_map (fun p => match p with Matched caps => [caps] | Plain _ => [] end)
           (scan r s 0).

(** [re.sub(r, '', s)]: the text outside of the matches. *)
Definition sub_empty (r : regex) (s : str) : str :=
  flat_map (fun p => match p with Matched _ => [] | Plain c => [c] end)
           (scan r s 0).

Definition lowercase (c : ascii) : bool :=
  ((97 <=? ord c) && (ord c <=? 122))%N.

Definition name_char (c : ascii) : bool :=
  lowercase c || isdecimal c || Ascii.eqb c "_".

Definition not_in (cs : str) (c : ascii) : bool := negb (contains c cs).

End Re.

(** ** Values, dictionaries and exceptions *)

(** The objects the parser builds.  [VStr] is a Python [str], [VFloat lit]
    is [float(lit)], [VList] a Python list and [VDict] a Python dict, its
    items in insertion order. *)
Inductive value : Type :=
| VStr (s : str)
| VInt (n : Z)
| VFloat (lit : str)
| VBool (b : bool)
| VList (items : list value)
| VDict (d : list (str * value)).

Definition dict : Type := list (str * value).

Fixpoint dict_get (d : dict) (k : str) : option value :=
  match d with
  | [] => None
  | (k', v) :: d' => if PyStr.str_eqb k' k then Some v else dict_get d' k
  end.

(** [k in d]. *)
Definition dict_mem (d : dict) (k : str) : bool :=
  match dict_get d k with Some _ => true | None => false end.

(** [d[k] = v]: a present key keeps its place, a new key goes last. *)
Fixpoint dict_set (d : dict) (k : str) (v : value) : dict :=
  match d with
  | [] => [(k, v)]
  | (k', v') :: d' =>
      if PyStr.str_eqb k' k then (k', v) :: d' else (k', v') :: dict_set d' k v
  end.

(** The outcome of a call: a result, the exception [ValueError], or the
    model's recursion budget used up (shown below not to happen). *)
Inductive outcome (A : Type) : Type :=
| Ok (a : A)
| ValueError
| OutOfFuel.

Arguments Ok {A} a.
Arguments ValueError {A}.
Arguments OutOfFuel {A}.

Definition bind {A B : Type} (m : outcome A) (f : A -> outcome B) : outcome B :=
  match m with
  | Ok a => f a
  | ValueError => ValueError
  | OutOfFuel => OutOfFuel
  end.

Notation "'do' x <- m ; f" := (bind m (fun x => f))
  (at level 10, x pattern, m at level 100, f at level 200).

(** ** class ConfigParser *)

Module ConfigParser.

Import PyStr.

Definition clean_line (line : str) : str :=
  rstrip (if contains "#" line then before "#" line else line).

Definition clean_text (text : str) : str :=
  join [newline]
       (filter (fun line => negb (is_empty line))
               (map clean_line (split newline text))).

(** [int(s)] for a string that [str.isdigit] accepted. *)
Definition int_of_str (s : str) : outcome value :=
  if forallb isdecimal s then Ok (VInt (Z.of_N (N_of_digits s)))
  else ValueError.

(** The pattern [^-?\d+\.\d+$]. *)
Definition float_pattern : Re.regex :=
  Re.Cat (Re.Opt (Re.Lit "-"))
    (Re.Cat (Re.Plus (Re.Class isdecimal))
       (Re.Cat (Re.Lit ".") (Re.Cat (Re.Plus (Re.Class isdecimal)) Re.Eos))).

Definition is_quoted (s : str) : bool :=
  startswith s dquote && endswith s dquote
  || startswith s squote && endswith s squote.

(** The state of the loop that splits the content of an array. *)
Record scan_state : Type := mk_scan {
  items : list value;
  current : str;
  in_quotes : bool;
  quote_char : option ascii;
  brace_count : Z
}.

Definition is_quote_char (st : scan_state) (c : ascii) : bool :=
  match quote_char st with
  | Some q => Ascii.eqb c q
  | None => false
  end.

(** The loop [for char in content] of [parse_value]; [pv] is the recursive
    call [self.parse_value]. *)
Fixpoint scan_items (pv : str -> outcome value) (content : str)
    (st : scan_state) : outcome scan_state :=
  match content with
  | [] => Ok st
  | char :: rest =>
      let keep (q : bool) (qc : option ascii) (bc : Z) :=
        scan_items pv rest
          (mk_scan (items st) (current st ++ [char]) q qc bc) in
      if (Ascii.eqb char squote || Ascii.eqb char dquote)
         && negb (in_quotes st)
      then keep true (Some char) (brace_count st)
      else if is_quote_char st char && in_quotes st
      then keep false None (brace_count st)
      else if Ascii.eqb char "{" && negb (in_quotes st)
      then keep (in_quotes st) (quote_char st) (brace_count st + 1)%Z
      else if Ascii.eqb char "}" && negb (in_quotes st)
      then keep (in_quotes st) (quote_char st) (brace_count st - 1)%Z
      else if Ascii.eqb char "," && negb (in_quotes st)
              && (brace_count st =? 0)%Z
      then
        do v <- pv (strip (current st));
        scan_items pv rest
          (mk_scan (items st ++ [v]) [] (in_quotes st) (quote_char st)
                   (brace_count st))
      else keep (in_quotes st) (quote_char st) (brace_count st)
  end.

Definition scan_start : scan_state := mk_scan [] [] false None 0%Z.

Fixpoint parse_value_fuel (fuel : nat) (constants : dict) (value_str : str)
    : outcome value :=
  match fuel with
  | O => OutOfFuel
  | S fuel' =>
      let value_str := strip value_str in
      if is_empty value_str then Ok (VStr [])
      else
        let value_str :=
          if endswith value_str ";" then strip (drop_last value_str)
          else value_str in
        if is_quoted value_str then Ok (VStr (inner value_str))
        else if isdigit value_str then int_of_str value_str
        else if Re.matches float_pattern value_str then Ok (VFloat value_str)
        else if str_eqb (lower value_str) "true" then Ok (VBool true)
        else if str_eqb (lower value_str) "false" then Ok (VBool false)
        else if startswith value_str "{" && endswith value_str "}" then
          let content := strip (inner value_str) in
          if is_empty content then Ok (VList [])
          else
            do st <- scan_items (parse_value_fuel fuel' constants) content
                       scan_start;
            if is_empty (strip (current st)) then Ok (VList (items st))
            else
              do v <- parse_value_fuel fuel' constants (strip (current st));
              Ok (VList (items st ++ [v]))
        else
          match dict_get constants value_str with
          | Some v => Ok v
          | None => Ok (VStr value_str)
          end
  end.

(** [self.parse_value(value_str)], [constants] being [self.constants].  An
    array nests less deeply than its text is long. *)
Definition parse_value (constants : dict) (value_str : str) : outcome value :=
  parse_value_fuel (S (List.length value_str)) constants value_str.

(** The three shapes of a line that opens or fills a key, shared by
    [parse_dict] and [parse]: the key is the text before the first
    separator, the value the text after it. *)
Definition split_key (sep : ascii) (line : str) : str :=
  strip (before sep line).

(** [self.parse_dict(lines, start_idx, depth)]: the loop
    [while i < len(lines)], [result] being the dictionary built so far.
    Every turn of the loop and every nested call uses one unit of [fuel]. *)
Fixpoint parse_dict_loop (fuel : nat) (constants : dict) (lines : list str)
    (i : nat) (depth : nat) (result : dict) : outcome (dict * nat) :=
  match fuel with
  | O => OutOfFuel
  | S fuel' =>
      match nth_error lines i with
      | None => Ok (result, i)
      | Some raw =>
          let line := strip raw in
          let nested (key : str) :=
            do (nested_dict, next_idx) <-
               parse_dict_loop fuel' constants lines (i + 1) (depth + 1) [];
            parse_dict_loop fuel' constants lines next_idx depth
              (dict_set result key (VDict nested_dict)) in
          let simple (key value_part : str) :=
            do v <- parse_value constants value_part;
            parse_dict_loop fuel' constants lines (i + 1) depth
              (dict_set result key v) in
          if is_empty line
          then parse_dict_loop fuel' constants lines (i + 1) depth result
          else if str_eqb line "}" then Ok (result, i + 1)
          else if contains ":" line then
            if endswith line "{" then nested (split_key ":" line)
            else
              let key := split_key ":" line in
              let value_part := strip (after ":" line) in
              if str_eqb value_part "{" then nested key
              else simple key value_part
          else if contains "=" line then
            let key := split_key "=" line in
            let value_part := strip (after "=" line) in
            if str_eqb value_part "{" then nested key
            else simple key value_part
          else if endswith line "{" then nested (strip (drop_last line))
          else parse_dict_loop fuel' constants lines (i + 1) depth result
      end
  end.

Definition parse_dict (fuel : nat) (constants : dict) (lines : list str)
    (start_idx : nat) (depth : nat) : outcome (dict * nat) :=
  parse_dict_loop fuel constants lines start_idx depth [].

(** [define_pattern]: an opening parenthesis and the word define, white
    space, group 1 (a lowercase letter, then lowercase letters, digits and
    underscores), white space, group 2 (one character or more, none of them
    a closing parenthesis or a semicolon), a closing parenthesis, optional
    white space and an optional semicolon. *)
Definition define_pattern : Re.regex :=
  Re.Cat (Re.lits "(define")
    (Re.Cat (Re.Plus (Re.Class isspace))
    (Re.Cat (Re.Group (Re.Cat (Re.Class Re.lowercase)
                              (Re.Star (Re.Class Re.name_char))))
    (Re.Cat (Re.Plus (Re.Class isspace))
    (Re.Cat (Re.Group (Re.Plus (Re.Class (Re.not_in ");"))))
    (Re.Cat (Re.Lit ")")
    (Re.Cat (Re.Star (Re.Class isspace)) (Re.Opt (Re.Lit ";")))))))).

(** The pattern of the call to [re.sub]: an opening parenthesis and the
    word define, any characters but a closing parenthesis, a closing
    parenthesis, optional white space and an optional semicolon. *)
Definition define_form : Re.regex :=
  Re.Cat (Re.lits "(define")
    (Re.Cat (Re.Star (Re.Class (Re.not_in ")")))
    (Re.Cat (Re.Lit ")")
    (Re.Cat (Re.Star (Re.Class isspace)) (Re.Opt (Re.Lit ";"))))).

(** The loop over [re.finditer(define_pattern, text)]: each match binds its
    name in [self.constants], the value parsed with the constants bound so
    far. *)
Fixpoint define_loop (found : list (list str)) (constants : dict)
    : outcome dict :=
  match found with
  | [] => Ok constants
  | groups :: found' =>
      let name := nth 0 groups [] in
      let value_str := strip (nth 1 groups []) in
      do v <- parse_value constants value_str;
      define_loop found' (dict_set constants name v)
  end.

(** The loop [while i < len(lines)] of [parse], [data] being [self.data]. *)
Fixpoint parse_loop (fuel : nat) (constants : dict) (lines : list str)
    (i : nat) (data : dict) : outcome dict :=
  match fuel with
  | O => OutOfFuel
  | S fuel' =>
      match nth_error lines i with
      | None => Ok data
      | Some raw =>
          let line := strip raw in
          let nested (key : str) :=
            do (nested_dict, next_idx) <-
               parse_dict fuel' constants lines (i + 1) 0;
            parse_loop fuel' constants lines next_idx
              (dict_set data key (VDict nested_dict)) in
          let simple (key value_part : str) :=
            do v <- parse_value constants value_part;
            parse_loop fuel' constants lines (i + 1) (dict_set data key v) in
          if is_empty line
          then parse_loop fuel' constants lines (i + 1) data
          else if contains ":" line && endswith line "{"
          then nested (split_key ":" line)
          else if contains "=" line && endswith line "{"
          then nested (split_key "=" line)
          else if endswith line "{" then nested (strip (drop_last line))
          else if contains ":" line
          then simple (split_key ":" line) (after ":" line)
          else if contains "=" line
          then simple (split_key "=" line) (after "=" line)
          else parse_loop fuel' constants lines (i + 1) data
      end
  end.

(** The last loop of [parse]: a constant is added to [self.data] when its
    name is not a key there. *)
Fixpoint add_constants (constants : dict) (data : dict) : dict :=
  match constants with
  | [] => data
  | (key, v) :: constants' =>
      add_constants constants'
        (if dict_mem data key then data else dict_set data key v)
  end.

(** The stages of [parse]: the cleansed text, [self.constants] after the
    loop over the defines, the lines left without the defines, and
    [self.data] after the loop over the lines. *)
Definition parse_constants (text : str) : outcome dict :=
  define_loop (Re.finditer define_pattern (clean_text text)) [].

Definition data_lines (text : str) : list str :=
  split newline (Re.sub_empty define_form (clean_text text)).

Definition parse_data (constants : dict) (text : str) : outcome dict :=
  let lines := data_lines text in
  parse_loop (S (List.length lines)) constants lines 0 [].

(** [self.parse(text)]. *)
Definition parse (text : str) : outcome dict :=
  do constants <- parse_constants text;
  do data <- parse_data constants text;
  Ok (add_constants constants data).

End ConfigParser.

(** ** class TOMLConverter *)

Module TOMLConverter.

Import PyStr.

Definition tab : ascii := "009"%char.
Definition carriage_return : ascii := "013"%char.
Definition backspace : ascii := "008"%char.
Definition form_feed : ascii := "012"%char.

(** The dictionary [replacements] of [escape_string]. *)
Definition replacements : list (ascii * str) :=
  [ (backslash, [backslash; backslash]);
    (dquote, [backslash; dquote]);
    (newline, [backslash; "n"%char]);
    (tab, [backslash; "t"%char]);
    (carriage_return, [backslash; "r"%char]);
    (backspace, [backslash; "b"%char]);
    (form_feed, [backslash; "f"%char]) ].

Fixpoint replacement (table : list (ascii * str)) (c : ascii) : option str :=
  match table with
  | [] => None
  | (x, r) :: table' => if Ascii.eqb x c then Some r else replacement table' c
  end.

(** What one turn of the loop of [escape_string] appends to [result]. *)
Definition escape_char (char : ascii) : str :=
  match replacement replacements char with
  | Some r => r
  | None =>
      if (ord char <? 32)%N
      then [backslash; "u"%char] ++ zfill 4 (hex (ord char))
      else [char]
  end.

Definition escape_string (value : str) : str :=
  List.concat (map escape_char value).

(** [list.sort] on strings, as an insertion sort. *)
Fixpoint insert (k : str) (keys : list str) : list str :=
  match keys with
  | [] => [k]
  | x :: keys' => if leb k x then k :: keys else x :: insert k keys'
  end.

Fixpoint sort (keys : list str) : list str :=
  match keys with
  | [] => []
  | k :: keys' => insert k (sort keys')
  end.

Definition is_dict (v : value) : bool :=
  match v with VDict _ => true | _ => false end.

(** The two lists the first loop of [to_toml] fills, before they are
    sorted. *)
Definition simple_keys (data : dict) : list str :=
  map fst (filter (fun kv => negb (is_dict (snd kv))) data).

Definition dict_keys (data : dict) : list str :=
  map fst (filter (fun kv => is_dict (snd kv)) data).

Fixpoint assoc {A : Type} (l : list (str * A)) (k : str) : option A :=
  match l with
  | [] => None
  | (k', a) :: l' => if str_eqb k' k then Some a else assoc l' k
  end.

Section Float.

(** [float_repr lit] is [repr(float(lit))], the text Python prints a float
    with. *)
Variable float_repr : str -> str.

(** [repr] of a string: in single quotes unless the string has a single
    quote and no double quote. *)
Definition isprintable (c : ascii) : bool :=
  let n := ord c in
  ((32 <=? n) && (n <=? 126) || (161 <=? n) && negb (n =? 173))%N.

Definition repr_char (quote : ascii) (c : ascii) : str :=
  if Ascii.eqb c quote || Ascii.eqb c backslash then [backslash; c]
  else if Ascii.eqb c tab then [backslash; "t"%char]
  else if Ascii.eqb c newline then [backslash; "n"%char]
  else if Ascii.eqb c carriage_return then [backslash; "r"%char]
  else if isprintable c then [c]
  else [backslash; "x"%char] ++ zfill 2 (hex (ord c)).

Definition repr_str (s : str) : str :=
  let quote :=
    if contains squote s && negb (contains dquote s) then dquote else squote in
  [quote] ++ List.concat (map (repr_char quote) s) ++ [quote].

(** [repr(v)]. *)
Fixpoint py_repr (v : value) : str :=
  match v with
  | VStr s => repr_str s
  | VInt n => str_of_int n
  | VFloat lit => float_repr lit
  | VBool true => "True"
  | VBool false => "False"
  | VList l => "[" ++ join ", " (map py_repr l) ++ "]"
  | VDict d =>
      "{" ++ join ", "
               (map (fun kv => repr_str (fst kv) ++ ": " ++ py_repr (snd kv)) d)
          ++ "}"
  end.

(** [str(v)]. *)
Definition py_str (v : value) : str :=
  match v with
  | VStr s => s
  | _ => py_repr v
  end.

(** An element of a list inside a list. *)
Definition render_inner (i : value) : str :=
  match i with
  | VStr s => [dquote] ++ s ++ [dquote]
  | _ => py_str i
  end.

(** An element of a list that is the value of a key. *)
Definition render_item (item : value) : str :=
  match item with
  | VStr s => [dquote] ++ escape_string s ++ [dquote]
  | VBool _ => lower (py_str item)
  | VInt _ | VFloat _ => py_str item
  | VList l => "[" ++ join ", " (map render_inner l) ++ "]"
  | VDict _ => [dquote] ++ py_str item ++ [dquote]
  end.

(** The text after the equals sign on the line of a key of [simple_keys],
    by the type of the value. *)
Definition render_value (v : value) : str :=
  match v with
  | VStr s => [dquote] ++ escape_string s ++ [dquote]
  | VBool _ => lower (py_str v)
  | VInt _ | VFloat _ => py_str v
  | VList l => "[" ++ join ", " (map render_item l) ++ "]"
  | VDict _ => [dquote] ++ py_str v ++ [dquote]
  end.

(** The line of a key of [simple_keys]. *)
Definition render_line (indent_str key : str) (v : value) : str :=
  indent_str ++ key ++ " = " ++ render_value v.

Definition indentation (indent : nat) : str :=
  List.concat (repeat ("  " : str) indent).

Definition full_path_of (path key : str) : str :=
  if is_empty path then key else path ++ "." ++ key.

Definition header (indent : nat) (full_path : str) : str :=
  if (indent =? 0)%nat then "[" ++ full_path ++ "]"
  else indentation indent ++ "[" ++ full_path ++ "]".

Definition simple_line (data : dict) (indent : nat) (key : str) : str :=
  match dict_get data key with
  | Some v => render_line (indentation indent) key v
  | None => []
  end.

(** [to_toml] on a value.  The recursive call [to_toml(data[key], ...)] is
    written as the lookup of [key] among the items of [data] with [to_toml]
    applied to them, which makes the recursion structural;
    [to_toml_unfold] below gives the equation in the shape of the source. *)
Fixpoint to_toml_value (v : value) (indent : nat) (path : str) {struct v}
    : str :=
  match v with
  | VDict data =>
      match data with
      | [] => []
      | _ :: _ =>
          let below :=
            map (fun kv => (fst kv, to_toml_value (snd kv))) data in
          join [newline]
            (map (simple_line data indent) (sort (simple_keys data))
             ++ flat_map
                  (fun key =>
                     let full_path := full_path_of path key in
                     [ header indent full_path;
                       match assoc below key with
                       | Some render => render (indent + 1)%nat full_path
                       | None => []
                       end ])
                  (sort (dict_keys data)))
      end
  | _ => []
  end.

(** [TOMLConverter.to_toml(data, indent, path)]. *)
Definition to_toml (data : dict) (indent : nat) (path : str) : str :=
  to_toml_value (VDict data) indent path.

(** What the second loop of [to_toml] appends to [lines] for one key of
    [dict_keys]: the header, and the text of the nested table. *)
Definition table_lines (data : dict) (indent : nat) (path key : str)
    : list str :=
  let full_path := full_path_of path key in
  [ header indent full_path;
    match dict_get data key with
    | Some (VDict d) => to_toml d (indent + 1)%nat full_path
    | _ => []
    end ].

End Float.

End TOMLConverter.

(** ** The conversion and the texts of the examples *)

(** The body of [convert_file] on the content of the file: [parse], then
    [to_toml] on its result. *)
Definition convert (float_repr : str -> str) (text : str) : outcome str :=
  do data <- ConfigParser.parse text;
  Ok (TOMLConverter.to_toml float_repr data 0 []).

Module Examples.

Import PyStr.

Definition q : string := String dquote EmptyString.
Definition nl : string := String newline EmptyString.

(** The input of the end-to-end example. *)
Definition server_text : str :=
  ("(define port 8080)" ++ nl ++
   "server: {" ++ nl ++
   "  host: " ++ q ++ "localhost" ++ q ++ nl ++
   "  port: port" ++ nl ++
   "  tags: {" ++ q ++ "a" ++ q ++ ", " ++ q ++ "b" ++ q ++ "}" ++ nl ++
   "}")%string.

(** The output the example expects. *)
Definition server_expected : str :=
  ("[server]" ++ nl ++
   "host = " ++ q ++ "localhost" ++ q ++ nl ++
   "port = 8080" ++ nl ++
   "tags = [" ++ q ++ "a" ++ q ++ ", " ++ q ++ "b" ++ q ++ "]")%string.

(** The output of the source. *)
Definition server_output : str :=
  ("port = 8080" ++ nl ++
   "[server]" ++ nl ++
   "  host = " ++ q ++ "localhost" ++ q ++ nl ++
   "  port = 8080" ++ nl ++
   "  tags = [" ++ q ++ "a" ++ q ++ ", " ++ q ++ "b" ++ q ++ "]")%string.

(** Two lines with a line made of a closing brace between them. *)
Definition brace_text : str := ("a: 1" ++ nl ++ "}" ++ nl ++ "b: 2")%string.



(** An array in an array, with a string that holds a double quote. *)
Definition nested_quote_text : str := ("x: {{'a" ++ q ++ "b'}}")%string.

Definition nested_quote_output : str :=
  ("x = [[" ++ q ++ "a" ++ q ++ "b" ++ q ++ "]]")%string.

Definition nested_quote_escaped : str :=
  ("x = [[" ++ q ++ "a\" ++ q ++ "b" ++ q ++ "]]")%string.

(** The root table of the end-to-end example. *)
Definition server_root : dict :=
  [ ("server" : str,
     VDict [ ("host" : str, VStr "localhost");
             ("port" : str, VInt 8080);
             ("tags" : str, VList [VStr "a"; VStr "b"]) ]);
    ("port" : str, VInt 8080) ].

(** The lines of [brace_text]. *)
Definition brace_lines : list str := ["a: 1" : str; "}" : str; "b: 2" : str].

(** The constants of the end-to-end example. *)
Definition port_constants : dict := [("port" : str, VInt 8080)].

(** A table with a string, an integer, an array and a nested table, none
    of them inserted in the order of the keys; the same items inserted in
    another order; and the text of both. *)
Definition sample_table : dict :=
  [ ("b" : str, VInt 1);
    ("t" : str, VDict [("z" : str, VBool true)]);
    ("c" : str, VList [VInt 1; VInt 2]);
    ("a" : str, VStr "x") ].

Definition sample_table_permuted : dict :=
  [ ("t" : str, VDict [("z" : str, VBool true)]);
    ("c" : str, VList [VInt 1; VInt 2]);
    ("a" : str, VStr "x");
    ("b" : str, VInt 1) ].

Definition sample_table_output : str :=
  ("a = " ++ q ++ "x" ++ q ++ nl ++ "b = 1" ++ nl ++ "c = [1, 2]" ++ nl
   ++ "[t]" ++ nl ++ "  z = true")%string.

(** A key bound to an array, and two lines that bind integers and
    booleans. *)
Definition array_text : str := "a: {1}".

Definition array_output : str := "a = [1]".

Definition array_output_again : str :=
  ("a = " ++ q ++ "[1]" ++ q)%string.

Definition flat_text : str := ("b = 2" ++ nl ++ "a: true")%string.

(** A printing of floats for the examples, none of which holds a float. *)
Definition literal_repr : str -> str := fun lit => lit.

End Examples.

(** ** Specification-side definitions *)

Module Spec.

Import PyStr ConfigParser TOMLConverter.

(** The token [parse_value] classifies: the text without the white space
    around it and without one trailing semicolon. *)
Definition token (value_str : str) : str :=
  let value_str := strip value_str in
  if endswith value_str ";" then strip (drop_last value_str) else value_str.

(** The forms that come before the constants in the order of precedence:
    empty text, quoted string, integer, float, boolean, array. *)
Definition earlier_form (value_str : str) : bool :=
  let tok := token value_str in
  is_empty (strip value_str)
  || is_quoted tok
  || isdigit tok
  || Re.matches float_pattern tok
  || str_eqb (lower tok) "true"
  || str_eqb (lower tok) "false"
  || startswith tok "{" && endswith tok "}".

(** The sixteen hexadecimal digits in lowercase, and the digit of a number
    below sixteen. *)
Definition hex_digits : str := "0123456789abcdef".

Definition hex_digit (n : N) : ascii := nth (N.to_nat n) hex_digits "0"%char.

(** The escaping table of the serializer, case by case.  The two last
    digits of a character below 32 are read in [hex_digits]. *)
Definition escape_table (c : ascii) : str :=
  if Ascii.eqb c backslash then [backslash; backslash]
  else if Ascii.eqb c dquote then [backslash; dquote]
  else if Ascii.eqb c newline then [backslash; "n"%char]
  else if Ascii.eqb c tab then [backslash; "t"%char]
  else if Ascii.eqb c carriage_return then [backslash; "r"%char]
  else if Ascii.eqb c backspace then [backslash; "b"%char]
  else if Ascii.eqb c form_feed then [backslash; "f"%char]
  else if (ord c <? 32)%N
  then [backslash; "u"%char; "0"%char; "0"%char;
        hex_digit (ord c / 16); hex_digit (ord c mod 16)]
  else [c].


(** A flat table that the parser reads back from its serialization: the
    keys are not empty, neither start nor end with white space and hold no
    separator, comment mark, parenthesis or line end; the values are
    booleans, integers that are not negative, and strings without a
    character that the serializer escapes or that the parser gives a
    meaning to. *)
Definition marks : str := [":"%char; "#"%char; "("%char; newline].

Definition key_ok (k : str) : bool :=
  negb (is_empty k)
  && negb (isspace (hd " "%char k))
  && negb (isspace (last k " "%char))
  && forallb (fun c => negb (contains c ("="%char :: marks))) k.

Definition safe_char (c : ascii) : bool :=
  (32 <=? ord c)%N && negb (contains c (dquote :: backslash :: marks)).

Definition value_ok (v : value) : bool :=
  match v with
  | VBool _ => true
  | VInt n => (0 <=? n)%Z
  | VStr s => forallb safe_char s
  | _ => false
  end.

Definition flat_table (data : dict) : bool :=
  forallb (fun kv => key_ok (fst kv) && value_ok (snd kv)) data.

Definition entry_ok (kv : str * value) : Prop :=
  key_ok (fst kv) = true /\ value_ok (snd kv) = true.

End Spec.

(** ** Definitions for further properties of the code *)

Module Coverage.

Import PyStr ConfigParser TOMLConverter.

(** A character that [int] accepts whenever [str.isdigit] does: any
    character but the three superscript digits. *)
Definition plain_char (c : ascii) : bool :=
  negb (isdigit_char c) || isdecimal c.

Definition plain (s : str) : Prop := Forall (fun c => plain_char c = true) s.

(** The number of opening braces of a text.  A nested block takes a line
    with an opening brace and a nested array takes an opening brace of its
    own, so the calls of [parse_dict] and of [parse_value] on a text never
    nest more deeply than this number. *)
Definition braces (text : str) : nat := count_occ ascii_dec text "{"%char.

(** The value of a hexadecimal digit. *)
Definition hex_value (c : ascii) : N :=
  if isdecimal c then (ord c - 48)%N else (ord c - 87)%N.

(** Reading of one escaped character at the head of a text: the inverse of
    the table of [escape_string], used to show that the escaping loses
    nothing. *)
Definition unescape_head (s : str) : option (ascii * str) :=
  match s with
  | [] => None
  | c :: rest =>
      if negb (Ascii.eqb c backslash) then Some (c, rest)
      else
        match rest with
        | [] => None
        | e :: rest' =>
            if Ascii.eqb e backslash then Some (backslash, rest')
            else if Ascii.eqb e dquote then Some (dquote, rest')
            else if Ascii.eqb e "n" then Some (newline, rest')
            else if Ascii.eqb e "t" then Some (tab, rest')
            else if Ascii.eqb e "r" then Some (carriage_return, rest')
            else if Ascii.eqb e "b" then Some (backspace, rest')
            else if Ascii.eqb e "f" then Some (form_feed, rest')
            else if Ascii.eqb e "u" then
              match rest' with
              | _ :: _ :: h :: l :: rest'' =>
                  Some (ascii_of_N (hex_value h * 16 + hex_value l), rest'')
              | _ => None
              end
            else None
        end
  end.

(** The body of a double-quoted string is well formed when it holds no
    character below 32 and no double quote but after a backslash, a
    backslash taking the character after it. *)
Fixpoint well_escaped (s : str) : bool :=
  match s with
  | [] => true
  | c :: rest =>
      (32 <=? ord c)%N
      && if Ascii.eqb c backslash then
           match rest with
           | [] => false
           | e :: rest' => (32 <=? ord e)%N && well_escaped rest'
           end
         else negb (Ascii.eqb c dquote) && well_escaped rest
  end.

(** Where a block that [parse_dict] read from index [i] ends: at an index
    [j] that is the number of lines, or the index after a line made of a
    closing brace. *)
Definition block_end (lines : list str) (i j : nat) : Prop :=
  i <= j <= List.length lines
  /\ (j = List.length lines
      \/ exists raw, i < j /\ nth_error lines (j - 1) = Some raw
                     /\ strip raw = "}").

(** The tests of [parse_value] on the token, after the white space and the
    trailing semicolon are gone; [fuel'] is the budget of the calls for the
    items of an array. *)
Definition classify_token (fuel' : nat) (constants : dict) (value_str : str)
    : outcome value :=
  if is_quoted value_str then Ok (VStr (inner value_str))
  else if isdigit value_str then int_of_str value_str
  else if Re.matches float_pattern value_str then Ok (VFloat value_str)
  else if str_eqb (lower value_str) "true" then Ok (VBool true)
  else if str_eqb (lower value_str) "false" then Ok (VBool false)
  else if startswith value_str "{" && endswith value_str "}" then
    let content := strip (inner value_str) in
    if is_empty content then Ok (VList [])
    else
      do st <- scan_items (parse_value_fuel fuel' constants) content
                 scan_start;
      if is_empty (strip (current st)) then Ok (VList (items st))
      else
        do v <- parse_value_fuel fuel' constants (strip (current st));
        Ok (VList (items st ++ [v]))
  else
    match dict_get constants value_str with
    | Some v => Ok v
    | None => Ok (VStr value_str)
    end.

(** The items of an array that the loop of [parse_value] keeps whole: an
    item without comma, quote or brace, or an item with one quoted part,
    which may hold commas, braces and the other quote. *)
Definition special (c : ascii) : bool :=
  contains c [","%char; squote; dquote; "{"%char; "}"%char].

Definition simple_text (t : str) : bool :=
  forallb (fun c => negb (special c)) t.

Definition item_ok (t : str) : Prop :=
  simple_text t = true
  \/ exists (pre : str) (q : ascii) (body post : str),
       t = pre ++ q :: body ++ q :: post
       /\ simple_text pre = true /\ simple_text post = true
       /\ (q = squote \/ q = dquote)
       /\ contains q body = false.

(** Items of an array, one of them quoted with a comma inside, and their
    values. *)
Definition array_items : list str :=
  ["1" : str; " 'a,b'" : str; " true" : str].

Definition array_values : list value :=
  [VInt 1; VStr "a,b"; VBool true].

(** A line that opens a block, and the table of [n] blocks, each in the
    one before. *)
Definition opening : str := "a: {".

Fixpoint nest (n : nat) : dict :=
  match n with
  | O => []
  | S n' => [("a" : str, VDict (nest n'))]
  end.

(** A value that [to_toml] writes without a call to [str] or [repr]: a
    string, an integer or a boolean. *)
Definition scalar (v : value) : bool :=
  match v with
  | VStr _ | VInt _ | VBool _ => true
  | _ => false
  end.

End Coverage.

(** * Properties *)

(** A fact about every character, by cases on its eight bits. *)
Ltac by_character c :=
  destruct c as [[] [] [] [] [] [] [] []]; vm_compute;
  intros; repeat split; solve [reflexivity | discriminate | assumption].

Module ParseValueFacts.

Import PyStr ConfigParser Spec.

(** C10: on the text made of one double quote, and on the text made of one
    single quote, [parse_value] returns the empty string: the one character
    passes both the starts-with and the ends-with test and the slice between
    the two ends is empty. *)
Theorem parse_value_lone_quote :
  forall constants : dict,
    parse_value constants [dquote] = Ok (VStr [])
    /\ parse_value constants [squote] = Ok (VStr []).
Proof.
  intros constants. split; reflexivity.
Qed.

Lemma parse_value_token :
  forall (constants : dict) (value_str : str),
    earlier_form value_str = false ->
    parse_value constants value_str =
    match dict_get constants (token value_str) with
    | Some v => Ok v
    | None => Ok (VStr (token value_str))
    end.
Proof.
  intros constants value_str H.
  unfold earlier_form in H.
  repeat (apply orb_false_iff in H; destruct H as [H ?]).
  unfold parse_value, parse_value_fuel.
  fold (token value_str).
  rewrite H.
  repeat match goal with
         | E : ?b = false |- context [if ?b then _ else _] => rewrite E
         end.
  reflexivity.
Qed.

(** C6: for a token that is none of the earlier forms, [parse_value] returns
    the value stored under the token when the token is a key of the
    constants, and the token itself, as a string, only when it is not. *)
Theorem parse_value_constant_outranks_identifier :
  forall (constants : dict) (value_str : str),
    earlier_form value_str = false ->
    (forall v, dict_get constants (token value_str) = Some v ->
               parse_value constants value_str = Ok v)
    /\ (dict_get constants (token value_str) = None ->
        parse_value constants value_str = Ok (VStr (token value_str))).
Proof.
  intros constants value_str H.
  pose proof (parse_value_token constants value_str H) as E.
  split.
  - intros v Hv. now rewrite E, Hv.
  - intros Hn. now rewrite E, Hn.
Qed.

Lemma parse_value_constant_outranks_identifier_witness :
  earlier_form " port; " = false
  /\ parse_value Examples.port_constants " port; " = Ok (VInt 8080)
  /\ parse_value Examples.port_constants "host" = Ok (VStr "host").
Proof.
  split; [reflexivity|]. split.
  - apply (proj1 (parse_value_constant_outranks_identifier
                    Examples.port_constants " port; " eq_refl)).
    reflexivity.
  - apply (proj2 (parse_value_constant_outranks_identifier
                    Examples.port_constants "host" eq_refl)).
    reflexivity.
Defined.

End ParseValueFacts.

Module EscapeFacts.

Import PyStr TOMLConverter Spec.

Lemma escape_char_table : forall c : ascii, escape_char c = escape_table c.
Proof.
  intros [[] [] [] [] [] [] [] []]; vm_compute; reflexivity.
Qed.

Lemma escape_string_app :
  forall a b : str, escape_string (a ++ b) = escape_string a ++ escape_string b.
Proof.
  intros a b. unfold escape_string. now rewrite map_app, concat_app.
Qed.

(** C7: [escape_string] translates its input character by character: the
    result is the concatenation, in order, of the translations of the
    characters, and the translation of a character is the one of the
    escaping table (two characters for the seven named ones, backslash u and
    four lowercase hexadecimal digits for another character below 32, the
    character itself otherwise).  The digits are those of the code point:
    the characters of codes 0, 11, 26 and 31 give u0000, u000b, u001a and
    u001f, and a text of a named character, a letter and a control
    character gives the three translations in order. *)
Theorem escape_string_per_character :
  (forall value : str,
      escape_string value = List.concat (map escape_table value)
      /\ (forall c rest, escape_string (c :: rest)
                         = escape_table c ++ escape_string rest))
  /\ escape_string ["000"%char] = backslash :: "u0000"
  /\ escape_string ["011"%char] = backslash :: "u000b"
  /\ escape_string ["026"%char] = backslash :: "u001a"
  /\ escape_string ["031"%char] = backslash :: "u001f"
  /\ escape_string [newline; "a"%char; "001"%char]
     = [backslash; "n"%char; "a"%char; backslash] ++ "u0001".
Proof.
  split.
  - intros value. split.
    + unfold escape_string. f_equal. apply map_ext, escape_char_table.
    + intros c rest. unfold escape_string. simpl.
      now rewrite escape_char_table.
  - repeat split; vm_compute; reflexivity.
Qed.

End EscapeFacts.

Module ExampleFacts.

Import PyStr ConfigParser TOMLConverter Examples.

Lemma server_example_eval :
  forall float_repr : str -> str,
    convert float_repr server_text = Ok server_output.
Proof.
  intros float_repr. vm_compute. reflexivity.
Qed.

(** C1, as the source has it: on the text of the end-to-end example the
    conversion gives the line of the constant [port] at the root, then the
    header of the table [server], then the three lines of the table, each
    indented by two spaces. *)
Theorem convert_server_example :
  forall float_repr : str -> str,
    convert float_repr server_text = Ok server_output.
Proof.
  intros float_repr. unfold convert.
  assert (E : ConfigParser.parse server_text = Ok server_root)
    by (vm_compute; reflexivity).
  rewrite E. cbn [bind]. vm_compute. reflexivity.
Qed.

(** C1 fails as stated: no printing of floats makes the conversion of the
    example give the expected text. *)
Lemma server_example_not_expected :
  ~ exists float_repr : str -> str,
      convert float_repr server_text = Ok server_expected.
Proof.
  intros [float_repr H].
  rewrite server_example_eval in H.
  discriminate H.
Qed.

End ExampleFacts.

Module DictFacts.

Import PyStr.

Lemma str_eqb_refl : forall a : str, str_eqb a a = true.
Proof.
  induction a as [|x a IH]; simpl; [reflexivity|].
  now rewrite Ascii.eqb_refl, IH.
Qed.

Lemma str_eqb_eq : forall a b : str, str_eqb a b = true <-> a = b.
Proof.
  induction a as [|x a IH]; intros [|y b]; simpl; split; intros H;
    try reflexivity; try discriminate.
  - apply andb_true_iff in H. destruct H as [Hx Hab].
    apply Ascii.eqb_eq in Hx. apply IH in Hab. now subst.
  - injection H as -> ->. now rewrite Ascii.eqb_refl, str_eqb_refl.
Qed.

Lemma str_eqb_neq : forall a b : str, str_eqb a b = false <-> a <> b.
Proof.
  intros a b. split.
  - intros H E. apply str_eqb_eq in E. congruence.
  - intros H. destruct (str_eqb a b) eqn:E; [|reflexivity].
    apply str_eqb_eq in E. contradiction.
Qed.

Lemma dict_get_set_same :
  forall (d : dict) (k : str) (v : value), dict_get (dict_set d k v) k = Some v.
Proof.
  induction d as [|[k' v'] d IH]; intros k v; simpl.
  - now rewrite str_eqb_refl.
  - destruct (str_eqb k' k) eqn:E; simpl; rewrite E; [reflexivity|apply IH].
Qed.

Lemma dict_get_set_other :
  forall (d : dict) (k k0 : str) (v : value),
    k <> k0 -> dict_get (dict_set d k v) k0 = dict_get d k0.
Proof.
  induction d as [|[k' v'] d IH]; intros k k0 v Hne; simpl.
  - apply str_eqb_neq in Hne. now rewrite Hne.
  - destruct (str_eqb k' k) eqn:E; simpl.
    + apply str_eqb_eq in E. subst k'.
      apply str_eqb_neq in Hne. now rewrite Hne.
    + destruct (str_eqb k' k0); [reflexivity|now apply IH].
Qed.

End DictFacts.

Module ParseFacts.

Import PyStr ConfigParser Spec Examples DictFacts.

Lemma add_constants_keeps :
  forall (constants data : dict) (n : str) (dv : value),
    dict_get data n = Some dv ->
    dict_get (add_constants constants data) n = Some dv.
Proof.
  induction constants as [|[key v] constants IH]; intros data n dv H; simpl.
  - exact H.
  - apply IH. unfold dict_mem.
    destruct (dict_get data key) eqn:E; [exact H|].
    rewrite dict_get_set_other; [exact H|].
    intros ->. congruence.
Qed.

Lemma add_constants_adds :
  forall (constants data : dict) (n : str) (v : value),
    dict_get constants n = Some v ->
    dict_get data n = None ->
    dict_get (add_constants constants data) n = Some v.
Proof.
  induction constants as [|[key v'] constants IH]; intros data n v Hc Hd;
    simpl in *.
  - discriminate.
  - destruct (str_eqb key n) eqn:E.
    + apply str_eqb_eq in E. subst key. injection Hc as ->.
      unfold dict_mem. rewrite Hd.
      apply add_constants_keeps, dict_get_set_same.
    + apply IH; [exact Hc|].
      apply str_eqb_neq in E.
      unfold dict_mem. destruct (dict_get data key); [exact Hd|].
      now rewrite dict_get_set_other.
Qed.

(** C2: when [parse] returns, for every name bound in the constants, the
    root table maps the name to the value the data lines gave it when they
    gave it one, and to the value of the constant when they did not.  No
    condition bears on the text or on the use of the constant. *)
Theorem parse_folds_every_constant :
  forall (text : str) (root : dict),
    parse text = Ok root ->
    exists constants data : dict,
      parse_constants text = Ok constants
      /\ parse_data constants text = Ok data
      /\ forall (n : str) (v : value),
           dict_get constants n = Some v ->
           (forall dv, dict_get data n = Some dv -> dict_get root n = Some dv)
           /\ (dict_get data n = None -> dict_get root n = Some v).
Proof.
  intros text root H. unfold parse in H.
  destruct (parse_constants text) as [constants| |] eqn:Ec;
    simpl in H; try discriminate.
  destruct (parse_data constants text) as [data| |] eqn:Ed;
    simpl in H; try discriminate.
  injection H as <-.
  exists constants, data. repeat split; try assumption.
  - intros dv Hd. now apply add_constants_keeps.
  - intros Hd. now apply add_constants_adds.
Qed.

Lemma parse_folds_every_constant_witness :
  parse server_text = Ok server_root
  /\ exists constants data : dict,
       parse_constants server_text = Ok constants
       /\ parse_data constants server_text = Ok data
       /\ forall (n : str) (v : value),
            dict_get constants n = Some v ->
            (forall dv, dict_get data n = Some dv ->
                        dict_get server_root n = Some dv)
            /\ (dict_get data n = None -> dict_get server_root n = Some v).
Proof.
  split; [vm_compute; reflexivity|].
  apply (parse_folds_every_constant server_text). vm_compute. reflexivity.
Defined.

(** C9, as the source has it: the loop of [parse] over the root lines has no
    case for a line made of a closing brace; it passes over the line and goes
    on with the next one, the root table unchanged.  In a nested block the
    same line ends the block: [parse_dict] returns the table built so far and
    the index after the line. *)
Theorem closing_brace_ends_nested_block_only :
  forall (fuel : nat) (constants : dict) (lines : list str) (i : nat)
         (raw : str),
    nth_error lines i = Some raw ->
    strip raw = "}" ->
    (forall data,
        parse_loop (S fuel) constants lines i data
        = parse_loop fuel constants lines (i + 1) data)
    /\ (forall depth result,
           parse_dict_loop (S fuel) constants lines i depth result
           = Ok (result, i + 1)).
Proof.
  intros fuel constants lines i raw Hnth Hraw. split.
  - intros data. simpl. rewrite Hnth, Hraw. reflexivity.
  - intros depth result. simpl. rewrite Hnth, Hraw. reflexivity.
Qed.

Lemma closing_brace_ends_nested_block_only_witness :
  (nth_error brace_lines 1 = Some ("}" : str) /\ strip "}" = "}")
  /\ (forall data,
         parse_loop 3 [] brace_lines 1 data
         = parse_loop 2 [] brace_lines (1 + 1) data)
  /\ (forall depth result,
         parse_dict_loop 3 [] brace_lines 1 depth result
         = Ok (result, 1 + 1)).
Proof.
  split; [split; reflexivity|].
  apply (closing_brace_ends_nested_block_only 2 [] brace_lines 1 "}");
    reflexivity.
Defined.

(** C9 fails as stated: a line made of a closing brace at the root does not
    end the parse, the line after it is read into the root table. *)
Lemma closing_brace_at_root_does_not_end_parse :
  parse brace_text = Ok [("a" : str, VInt 1); ("b" : str, VInt 2)]
  /\ parse ("a: 1" : str) = Ok [("a" : str, VInt 1)].
Proof.
  split; vm_compute; reflexivity.
Qed.

End ParseFacts.

Module DefineFacts.

Import PyStr ConfigParser Spec Examples DictFacts.





Lemma endswith_In : forall (s : str) (c : ascii), endswith s c = true -> In c s.
Proof.
  induction s as [|x s IH]; intros c H; simpl in H; [discriminate|].
  destruct s as [|y s].
  - apply Ascii.eqb_eq in H. subst. now left.
  - right. now apply IH.
Qed.










End DefineFacts.

Module OrderFacts.

Import PyStr TOMLConverter.

Lemma ord_inj : forall x y : ascii, ord x = ord y -> x = y.
Proof.
  intros x y H. unfold ord in H.
  rewrite <- (ascii_N_embedding x), <- (ascii_N_embedding y). now rewrite H.
Qed.

Lemma leb_refl : forall a : str, leb a a = true.
Proof.
  unfold leb. induction a as [|x a IH]; simpl; [reflexivity|].
  now rewrite N.compare_refl.
Qed.

Lemma compare_eq : forall a b : str, compare a b = Eq -> a = b.
Proof.
  induction a as [|x a IH]; intros [|y b] H; simpl in H;
    try reflexivity; try discriminate.
  destruct (N.compare_spec (ord x) (ord y)) as [E|L|L]; try discriminate.
  apply ord_inj in E. apply IH in H. now subst.
Qed.

Lemma compare_antisym :
  forall a b : str, compare b a = CompOpp (compare a b).
Proof.
  induction a as [|x a IH]; intros [|y b]; simpl; try reflexivity.
  rewrite (N.compare_antisym (ord x) (ord y)).
  destruct (N.compare (ord x) (ord y)); simpl; [apply IH| |]; reflexivity.
Qed.

Lemma leb_total : forall a b : str, leb a b = false -> leb b a = true.
Proof.
  intros a b. unfold leb. rewrite (compare_antisym a b).
  destruct (compare a b); simpl; congruence.
Qed.

Lemma leb_antisym : forall a b : str, le a b -> le b a -> a = b.
Proof.
  intros a b. unfold le, leb. rewrite (compare_antisym a b).
  destruct (compare a b) eqn:E; simpl; try discriminate.
  intros _ _. now apply compare_eq.
Qed.

Lemma leb_trans : forall a b c : str, le a b -> le b c -> le a c.
Proof.
  unfold le, leb.
  induction a as [|x a IH]; intros [|y b] [|z c]; simpl;
    try reflexivity; try discriminate.
  destruct (N.compare_spec (ord x) (ord y)) as [E1|L1|L1];
    destruct (N.compare_spec (ord y) (ord z)) as [E2|L2|L2];
    destruct (N.compare_spec (ord x) (ord z)) as [E3|L3|L3];
    try discriminate; try reflexivity; try lia.
  apply IH.
Qed.

Lemma insert_perm :
  forall (k : str) (l : list str), Permutation (insert k l) (k :: l).
Proof.
  intros k. induction l as [|x l IH]; simpl; [reflexivity|].
  destruct (leb k x); [reflexivity|].
  rewrite IH. apply perm_swap.
Qed.

Lemma sort_perm : forall l : list str, Permutation (sort l) l.
Proof.
  induction l as [|x l IH]; simpl; [reflexivity|].
  rewrite insert_perm. now constructor.
Qed.

Lemma insert_sorted :
  forall (k : str) (l : list str),
    StronglySorted le l -> StronglySorted le (insert k l).
Proof.
  intros k l H. induction H as [|x l Hs IH Hx]; simpl.
  - repeat constructor.
  - destruct (leb k x) eqn:E.
    + constructor; [now constructor|].
      constructor; [exact E|].
      eapply Forall_impl; [|exact Hx].
      intros y Hy. now apply (leb_trans k x y).
    + constructor; [exact IH|].
      apply (Permutation_Forall (Permutation_sym (insert_perm k l))).
      constructor; [now apply leb_total|exact Hx].
Qed.

Lemma sort_sorted : forall l : list str, StronglySorted le (sort l).
Proof.
  induction l as [|x l IH]; simpl; [constructor|now apply insert_sorted].
Qed.

(** Two sorted lists with the same elements are the same list. *)
Lemma sorted_perm_eq :
  forall l1 l2 : list str,
    StronglySorted le l1 -> StronglySorted le l2 -> Permutation l1 l2 ->
    l1 = l2.
Proof.
  induction l1 as [|x l1 IH]; intros l2 H1 H2 P.
  - apply Permutation_nil in P. now subst.
  - destruct l2 as [|y l2].
    + apply Permutation_sym, Permutation_nil in P. discriminate.
    + apply StronglySorted_inv in H1. destruct H1 as [S1 F1].
      apply StronglySorted_inv in H2. destruct H2 as [S2 F2].
      assert (x = y) as ->.
      { rewrite Forall_forall in F1, F2.
        assert (Hx : In x (y :: l2))
          by (eapply Permutation_in; [exact P|now left]).
        assert (Hy : In y (x :: l1))
          by (eapply Permutation_in; [apply Permutation_sym, P|now left]).
        destruct Hx as [->|Hx]; [reflexivity|].
        destruct Hy as [->|Hy]; [reflexivity|].
        apply leb_antisym; [now apply F1|now apply F2]. }
      f_equal. apply IH; try assumption.
      now apply Permutation_cons_inv in P.
Qed.

Lemma sort_permuted :
  forall l1 l2 : list str, Permutation l1 l2 -> sort l1 = sort l2.
Proof.
  intros l1 l2 P. apply sorted_perm_eq; try apply sort_sorted.
  rewrite !sort_perm. exact P.
Qed.

End OrderFacts.

Module TomlFacts.

Import PyStr TOMLConverter DictFacts OrderFacts Examples.

Lemma assoc_below :
  forall (A : Type) (f : value -> A) (data : dict) (key : str),
    assoc (map (fun kv => (fst kv, f (snd kv))) data) key
    = option_map f (dict_get data key).
Proof.
  intros A f. induction data as [|[k v] data IH]; intros key; simpl.
  - reflexivity.
  - destruct (str_eqb k key); [reflexivity|apply IH].
Qed.

Lemma dict_get_In :
  forall (d : dict) (k : str) (v : value),
    dict_get d k = Some v -> In (k, v) d.
Proof.
  induction d as [|[k' v'] d IH]; intros k v H; simpl in H; [discriminate|].
  destruct (str_eqb k' k) eqn:E.
  - apply str_eqb_eq in E. injection H as ->. subst. now left.
  - right. now apply IH.
Qed.

Lemma dict_get_None :
  forall (d : dict) (k : str),
    dict_get d k = None -> ~ In k (map fst d).
Proof.
  induction d as [|[k' v'] d IH]; intros k H; simpl in *; [tauto|].
  destruct (str_eqb k' k) eqn:E; [discriminate|].
  apply str_eqb_neq in E. intros [F|F]; [contradiction|].
  now apply (IH k H).
Qed.

Lemma In_dict_get :
  forall (d : dict) (k : str) (v : value),
    NoDup (map fst d) -> In (k, v) d -> dict_get d k = Some v.
Proof.
  induction d as [|[k' v'] d IH]; intros k v N H; simpl in *; [contradiction|].
  inversion N as [|? ? Hnot N']; subst.
  destruct H as [H|H].
  - injection H as -> ->. now rewrite str_eqb_refl.
  - destruct (str_eqb k' k) eqn:E.
    + apply str_eqb_eq in E. subst k'.
      exfalso. apply Hnot. apply (in_map fst) in H. exact H.
    + now apply IH.
Qed.

Lemma dict_get_permuted :
  forall (d d' : dict) (k : str),
    NoDup (map fst d) -> Permutation d d' -> dict_get d' k = dict_get d k.
Proof.
  intros d d' k N P.
  assert (N' : NoDup (map fst d'))
    by (eapply Permutation_NoDup; [apply Permutation_map, P|exact N]).
  destruct (dict_get d k) as [v|] eqn:E.
  - apply In_dict_get; [exact N'|].
    eapply Permutation_in; [exact P|]. now apply dict_get_In.
  - destruct (dict_get d' k) as [v|] eqn:E'; [|reflexivity].
    exfalso. apply (dict_get_None d k E).
    apply dict_get_In in E'. apply (in_map fst) in E'.
    eapply Permutation_in; [apply Permutation_sym, Permutation_map, P|].
    exact E'.
Qed.

Lemma filter_permuted :
  forall (A : Type) (f : A -> bool) (l l' : list A),
    Permutation l l' -> Permutation (filter f l) (filter f l').
Proof.
  intros A f l l' P. induction P as [|x l l' P IH|x y l|l l' l'' P1 IH1 P2 IH2];
    simpl.
  - constructor.
  - destruct (f x); [now constructor|exact IH].
  - destruct (f x), (f y); try reflexivity. apply perm_swap.
  - now transitivity (filter f l').
Qed.

Section WithFloat.

Variable float_repr : str -> str.

(** The equation of [to_toml] in the shape of the source: the lines of the
    sorted simple keys, then, for each sorted key of a nested table, its
    header and the text of [to_toml] on [data[key]]. *)
Lemma to_toml_unfold :
  forall (data : dict) (indent : nat) (path : str),
    to_toml float_repr data indent path
    = join [newline]
        (map (simple_line float_repr data indent) (sort (simple_keys data))
         ++ flat_map (table_lines float_repr data indent path)
              (sort (dict_keys data))).
Proof.
  intros data indent path. unfold to_toml at 1.
  destruct data as [|kv data]; [reflexivity|].
  set (d := kv :: data).
  change (to_toml_value float_repr (VDict d) indent path) with
    (join [newline]
       (map (simple_line float_repr d indent) (sort (simple_keys d))
        ++ flat_map
             (fun key =>
                let full_path := full_path_of path key in
                [ header indent full_path;
                  match
                    assoc (map (fun kv => (fst kv,
                                           to_toml_value float_repr (snd kv)))
                               d) key
                  with
                  | Some render => render (indent + 1)%nat full_path
                  | None => []
                  end ])
             (sort (dict_keys d)))).
  f_equal. f_equal. apply flat_map_ext. intros key.
  unfold table_lines. rewrite assoc_below.
  destruct (dict_get d key) as [[]|]; reflexivity.
Qed.

Lemma simple_keys_spec :
  forall (data : dict) (k : str),
    NoDup (map fst data) -> In k (simple_keys data) ->
    exists v, dict_get data k = Some v /\ is_dict v = false.
Proof.
  intros data k N H. unfold simple_keys in H.
  apply in_map_iff in H. destruct H as [[k' v] [E H]]. simpl in E. subst k'.
  apply filter_In in H. destruct H as [H Hd]. simpl in Hd.
  exists v. split; [now apply In_dict_get|].
  now destruct (is_dict v).
Qed.

Lemma dict_keys_spec :
  forall (data : dict) (k : str),
    NoDup (map fst data) -> In k (dict_keys data) ->
    exists d, dict_get data k = Some (VDict d).
Proof.
  intros data k N H. unfold dict_keys in H.
  apply in_map_iff in H. destruct H as [[k' v] [E H]]. simpl in E. subst k'.
  apply filter_In in H. destruct H as [H Hd]. simpl in Hd.
  destruct v as [| | | | |d]; try discriminate.
  exists d. apply In_dict_get; assumption.
Qed.

Lemma to_toml_permuted :
  forall (data data' : dict) (indent : nat) (path : str),
    NoDup (map fst data) -> Permutation data data' ->
    to_toml float_repr data' indent path = to_toml float_repr data indent path.
Proof.
  intros data data' indent path N P.
  rewrite !to_toml_unfold.
  assert (Es : sort (simple_keys data') = sort (simple_keys data)).
  { apply sort_permuted. unfold simple_keys.
    apply Permutation_map, filter_permuted, Permutation_sym, P. }
  assert (Ed : sort (dict_keys data') = sort (dict_keys data)).
  { apply sort_permuted. unfold dict_keys.
    apply Permutation_map, filter_permuted, Permutation_sym, P. }
  rewrite Es, Ed. f_equal. f_equal.
  - apply map_ext. intros key. unfold simple_line.
    now rewrite (dict_get_permuted data data' key N P).
  - apply flat_map_ext. intros key. unfold table_lines.
    now rewrite (dict_get_permuted data data' key N P).
Qed.

Lemma simple_keys_complete :
  forall (data : dict) (k : str) (v : value),
    dict_get data k = Some v -> is_dict v = false -> In k (simple_keys data).
Proof.
  intros data k v H Hd. apply dict_get_In in H. unfold simple_keys.
  apply in_map_iff. exists (k, v). split; [reflexivity|].
  apply filter_In. split; [exact H|]. simpl. now rewrite Hd.
Qed.

Lemma dict_keys_complete :
  forall (data : dict) (k : str) (d : dict),
    dict_get data k = Some (VDict d) -> In k (dict_keys data).
Proof.
  intros data k d H. apply dict_get_In in H. unfold dict_keys.
  apply in_map_iff. exists (k, VDict d). split; [reflexivity|].
  apply filter_In. split; [exact H|reflexivity].
Qed.

Lemma sorted_group_NoDup :
  forall (f : str * value -> bool) (data : dict),
    NoDup (map fst data) -> NoDup (sort (map fst (filter f data))).
Proof.
  intros f data N.
  apply (Permutation_NoDup (Permutation_sym (sort_perm _))).
  induction data as [|kv data IH]; simpl; [constructor|].
  inversion N as [|? ? Hnot N']; subst.
  destruct (f kv); simpl; [|now apply IH].
  constructor; [|now apply IH].
  intros Hin. apply Hnot. apply in_map_iff in Hin.
  destruct Hin as [kv' [E Hin]]. apply filter_In in Hin.
  rewrite <- E. apply in_map, Hin.
Qed.

(** C8: at a table level, [to_toml] gives first the lines of the keys whose
    value is not a table, then the headers and texts of the keys whose value
    is a table.  The first group holds every key of the table whose value is
    not a table and no other key, the second every key whose value is a
    table and no other; each group holds its keys once each, in ascending
    order of the strings.  The text is the same for every order in which the
    same items were inserted. *)
Theorem to_toml_simple_then_tables_sorted :
  forall (data : dict) (indent : nat) (path : str),
    NoDup (map fst data) ->
    (exists ks kd : list str,
        to_toml float_repr data indent path
        = join [newline]
            (map (simple_line float_repr data indent) ks
             ++ flat_map (table_lines float_repr data indent path) kd)
        /\ (forall k, In k ks <->
              exists v, dict_get data k = Some v /\ is_dict v = false)
        /\ (forall k, In k kd <-> exists d, dict_get data k = Some (VDict d))
        /\ NoDup ks /\ StronglySorted le ks
        /\ NoDup kd /\ StronglySorted le kd
        /\ Permutation ks (simple_keys data)
        /\ Permutation kd (dict_keys data))
    /\ (forall data' : dict,
           Permutation data data' ->
           to_toml float_repr data' indent path
           = to_toml float_repr data indent path).
Proof.
  intros data indent path N. split.
  - exists (sort (simple_keys data)), (sort (dict_keys data)).
    split; [apply to_toml_unfold|].
    split; [|split].
    + intros k. split.
      * intros Hk. apply simple_keys_spec; [exact N|].
        eapply Permutation_in; [apply sort_perm|exact Hk].
      * intros [v [Hv Hd]].
        eapply Permutation_in; [apply Permutation_sym, sort_perm|].
        now apply (simple_keys_complete data k v).
    + intros k. split.
      * intros Hk. apply dict_keys_spec; [exact N|].
        eapply Permutation_in; [apply sort_perm|exact Hk].
      * intros [d Hd].
        eapply Permutation_in; [apply Permutation_sym, sort_perm|].
        now apply (dict_keys_complete data k d).
    + split; [now apply sorted_group_NoDup|]. split; [apply sort_sorted|].
      split; [now apply sorted_group_NoDup|]. split; [apply sort_sorted|].
      split; apply sort_perm.
  - intros data' P. now apply to_toml_permuted.
Qed.

End WithFloat.

Lemma sample_table_keys : NoDup (map fst sample_table).
Proof.
  repeat constructor; simpl; intuition discriminate.
Defined.

Lemma to_toml_simple_then_tables_sorted_witness :
  NoDup (map fst sample_table)
  /\ to_toml literal_repr sample_table 0 [] = sample_table_output
  /\ to_toml literal_repr sample_table_permuted 0 [] = sample_table_output.
Proof.
  split; [exact sample_table_keys|].
  assert (E : to_toml literal_repr sample_table 0 [] = sample_table_output)
    by (vm_compute; reflexivity).
  split; [exact E|].
  rewrite <- E.
  apply (proj2 (to_toml_simple_then_tables_sorted
                  literal_repr sample_table 0 [] sample_table_keys)).
  unfold sample_table, sample_table_permuted.
  apply (Permutation_cons_app [_; _; _] []). reflexivity.
Defined.

Lemma nested_quote_eval :
  forall float_repr : str -> str,
    convert float_repr nested_quote_text = Ok nested_quote_output.
Proof.
  intros float_repr. vm_compute. reflexivity.
Qed.

(** C3 on the source: a string in an array that is itself an element of an
    array is put between double quotes as it is; the double quote it holds
    is not escaped, where the same string as an element of the outer array
    is. *)
Theorem nested_array_string_not_escaped :
  forall float_repr : str -> str,
    ConfigParser.parse nested_quote_text
    = Ok [("x" : str, VList [VList [VStr [ "a"%char; dquote; "b"%char ]]])]
    /\ convert float_repr nested_quote_text = Ok nested_quote_output
    /\ nested_quote_output <> nested_quote_escaped
    /\ render_item float_repr (VStr [ "a"%char; dquote; "b"%char ])
       = [dquote; "a"%char; backslash; dquote; "b"%char; dquote].
Proof.
  intros float_repr. split; [vm_compute; reflexivity|].
  split; [apply nested_quote_eval|].
  split; [discriminate|reflexivity].
Qed.

End TomlFacts.

Module Totality.

Import PyStr ConfigParser.

Lemma lstrip_length : forall s : str, List.length (lstrip s) <= List.length s.
Proof.
  induction s as [|c s IH]; simpl; [lia|].
  destruct (isspace c); simpl; lia.
Qed.

Lemma rstrip_length : forall s : str, List.length (rstrip s) <= List.length s.
Proof.
  induction s as [|c s IH]; simpl; [lia|].
  destruct (rstrip s); [destruct (isspace c)|]; simpl in *; lia.
Qed.

Lemma strip_length : forall s : str, List.length (strip s) <= List.length s.
Proof.
  intros s. unfold strip.
  pose proof (lstrip_length (rstrip s)). pose proof (rstrip_length s). lia.
Qed.

Lemma removelast_length :
  forall s : str, List.length (removelast s) = pred (List.length s).
Proof.
  induction s as [|c s IH]; [reflexivity|].
  destruct s as [|c' s]; [reflexivity|].
  change (removelast (c :: c' :: s)) with (c :: removelast (c' :: s)).
  simpl List.length in *. now rewrite IH.
Qed.

Lemma inner_length :
  forall s : str, List.length (inner s) <= List.length s - 2.
Proof.
  intros s. unfold inner. rewrite removelast_length.
  destruct s; simpl; lia.
Qed.

(** The loop over the content of an array calls [pv] on texts no longer
    than the content. *)
Lemma scan_items_total :
  forall (pv : str -> outcome value) (m : nat),
    (forall t, List.length t <= m -> pv t <> OutOfFuel) ->
    forall (content : str) (st : scan_state),
      List.length (current st) + List.length content <= m ->
      scan_items pv content st <> OutOfFuel
      /\ forall st', scan_items pv content st = Ok st' ->
                     List.length (current st') <= m.
Proof.
  intros pv m Hpv. induction content as [|char rest IH]; intros st Hlen.
  - split; [discriminate|]. intros st' E. injection E as <-. simpl in Hlen. lia.
  - assert (Hkeep : forall q qc bc,
               List.length
                 (current (mk_scan (items st) (current st ++ [char]) q qc bc))
               + List.length rest <= m).
    { intros q qc bc. cbn [current]. rewrite length_app.
      simpl in *. lia. }
    cbn [scan_items].
    repeat match goal with
           | |- context [if ?b then _ else _] => destruct b
           end;
      try (apply IH; apply Hkeep).
    assert (Hs : List.length (strip (current st)) <= m).
    { pose proof (strip_length (current st)). lia. }
    destruct (pv (strip (current st))) as [v| |] eqn:E; cbn [bind].
    + apply IH. cbn [current]. simpl in *. lia.
    + split; [discriminate|]. intros st' F. discriminate.
    + exfalso. now apply (Hpv _ Hs).
Qed.

Lemma int_of_str_total : forall s : str, int_of_str s <> OutOfFuel.
Proof.
  intros s. unfold int_of_str. destruct (forallb isdecimal s); discriminate.
Qed.

(** [parse_value] has fuel enough: an array is parsed with calls on texts
    shorter than itself. *)
Lemma parse_value_fuel_total :
  forall (fuel : nat) (constants : dict) (value_str : str),
    List.length value_str < fuel ->
    parse_value_fuel fuel constants value_str <> OutOfFuel.
Proof.
  induction fuel as [|fuel IH]; intros constants value_str Hlen; [lia|].
  cbn [parse_value_fuel].
  set (vs := if endswith (strip value_str) ";"
             then strip (drop_last (strip value_str))
             else strip value_str).
  assert (Hvs : List.length vs <= List.length value_str).
  { unfold vs. pose proof (strip_length value_str).
    destruct (endswith (strip value_str) ";"); [|lia].
    pose proof (strip_length (drop_last (strip value_str))).
    unfold drop_last in *. rewrite removelast_length in *. lia. }
  destruct (is_empty (strip value_str)); [discriminate|].
  destruct (is_quoted vs); [discriminate|].
  destruct (isdigit vs); [apply int_of_str_total|].
  destruct (Re.matches float_pattern vs); [discriminate|].
  destruct (str_eqb (lower vs) "true"); [discriminate|].
  destruct (str_eqb (lower vs) "false"); [discriminate|].
  destruct (startswith vs "{" && endswith vs "}") eqn:Hbr;
    [|destruct (dict_get constants vs); discriminate].
  assert (Hne : 0 < List.length vs).
  { destruct vs; [discriminate|simpl; lia]. }
  set (content := strip (inner vs)).
  assert (Hc : List.length content < fuel).
  { unfold content. pose proof (strip_length (inner vs)).
    pose proof (inner_length vs). lia. }
  destruct (is_empty content); [discriminate|].
  assert (Hpv : forall t, List.length t <= List.length content ->
                          parse_value_fuel fuel constants t <> OutOfFuel).
  { intros t Ht. apply IH. lia. }
  destruct (scan_items_total _ _ Hpv content scan_start) as [Hscan Hcur];
    [simpl; lia|].
  destruct (scan_items (parse_value_fuel fuel constants) content scan_start)
    as [st| |] eqn:E; cbn [bind]; try discriminate; [|contradiction].
  destruct (is_empty (strip (current st))); [discriminate|].
  specialize (Hcur st eq_refl).
  assert (Hv : parse_value_fuel fuel constants (strip (current st))
               <> OutOfFuel).
  { apply Hpv. pose proof (strip_length (current st)). lia. }
  destruct (parse_value_fuel fuel constants (strip (current st)));
    cbn [bind]; [discriminate|discriminate|contradiction].
Qed.

(** [parse_value] returns a value or raises [ValueError]. *)
Lemma parse_value_total :
  forall (constants : dict) (value_str : str),
    parse_value constants value_str <> OutOfFuel.
Proof.
  intros constants value_str. apply parse_value_fuel_total. lia.
Qed.

Ltac split_tests :=
  repeat match goal with
         | |- context [if ?b then _ else _] => destruct b
         end.

(** [parse_dict] has fuel enough when the fuel exceeds the number of lines
    left, and the index it returns is not before the index it started at. *)
Lemma parse_dict_loop_total :
  forall (fuel : nat) (constants : dict) (lines : list str) (i depth : nat)
         (result : dict),
    List.length lines - i < fuel ->
    parse_dict_loop fuel constants lines i depth result <> OutOfFuel
    /\ forall r j, parse_dict_loop fuel constants lines i depth result
                   = Ok (r, j) -> i <= j.
Proof.
  induction fuel as [|fuel IH]; intros constants lines i depth result Hlen;
    [lia|].
  cbn [parse_dict_loop].
  destruct (nth_error lines i) as [raw|] eqn:Hnth.
  2:{ split; [discriminate|]. intros r j E. injection E as _ <-. lia. }
  assert (Hi : i < List.length lines).
  { apply nth_error_Some. congruence. }
  assert (Hnext : forall d res,
             parse_dict_loop fuel constants lines (i + 1) d res <> OutOfFuel
             /\ forall r j, parse_dict_loop fuel constants lines (i + 1) d res
                            = Ok (r, j) -> i + 1 <= j).
  { intros d res. apply IH. lia. }
  assert (Hnested : forall key,
             (do (nested_dict, next_idx) <-
                 parse_dict_loop fuel constants lines (i + 1) (depth + 1) [];
              parse_dict_loop fuel constants lines next_idx depth
                (dict_set result key (VDict nested_dict))) <> OutOfFuel
             /\ forall r j,
                 (do (nested_dict, next_idx) <-
                     parse_dict_loop fuel constants lines (i + 1) (depth + 1)
                       [];
                  parse_dict_loop fuel constants lines next_idx depth
                    (dict_set result key (VDict nested_dict))) = Ok (r, j) ->
                 i <= j).
  { intros key. destruct (Hnext (depth + 1) []) as [H1 H2].
    destruct (parse_dict_loop fuel constants lines (i + 1) (depth + 1) [])
      as [[nd next]| |]; cbn [bind].
    - specialize (H2 nd next eq_refl).
      destruct (IH constants lines next depth
                   (dict_set result key (VDict nd))) as [H3 H4]; [lia|].
      split; [exact H3|]. intros r j E. apply H4 in E. lia.
    - split; [discriminate|]. intros r j E. discriminate.
    - contradiction. }
  assert (Hsimple : forall key value_part,
             (do v <- parse_value constants value_part;
              parse_dict_loop fuel constants lines (i + 1) depth
                (dict_set result key v)) <> OutOfFuel
             /\ forall r j,
                 (do v <- parse_value constants value_part;
                  parse_dict_loop fuel constants lines (i + 1) depth
                    (dict_set result key v)) = Ok (r, j) -> i <= j).
  { intros key value_part.
    pose proof (parse_value_total constants value_part) as Hv.
    destruct (parse_value constants value_part) as [v| |]; cbn [bind].
    - destruct (Hnext depth (dict_set result key v)) as [H1 H2].
      split; [exact H1|]. intros r j E. apply H2 in E. lia.
    - split; [discriminate|]. intros r j E. discriminate.
    - contradiction. }
  assert (Hskip :
            parse_dict_loop fuel constants lines (i + 1) depth result
            <> OutOfFuel
            /\ forall r j,
                parse_dict_loop fuel constants lines (i + 1) depth result
                = Ok (r, j) -> i <= j).
  { destruct (Hnext depth result) as [H1 H2].
    split; [exact H1|]. intros r j E. apply H2 in E. lia. }
  cbv zeta. split_tests;
    try apply Hskip; try apply Hnested; try apply Hsimple.
  split; [discriminate|]. intros r j E. injection E as _ <-. lia.
Qed.

Lemma parse_loop_total :
  forall (fuel : nat) (constants : dict) (lines : list str) (i : nat)
         (data : dict),
    List.length lines - i < fuel ->
    parse_loop fuel constants lines i data <> OutOfFuel.
Proof.
  induction fuel as [|fuel IH]; intros constants lines i data Hlen; [lia|].
  cbn [parse_loop].
  destruct (nth_error lines i) as [raw|] eqn:Hnth; [|discriminate].
  assert (Hi : i < List.length lines).
  { apply nth_error_Some. congruence. }
  assert (Hnext : forall d,
             parse_loop fuel constants lines (i + 1) d <> OutOfFuel).
  { intros d. apply IH. lia. }
  assert (Hnested : forall key,
             (do (nested_dict, next_idx) <-
                 parse_dict fuel constants lines (i + 1) 0;
              parse_loop fuel constants lines next_idx
                (dict_set data key (VDict nested_dict))) <> OutOfFuel).
  { intros key. unfold parse_dict.
    destruct (parse_dict_loop_total fuel constants lines (i + 1) 0 [])
      as [H1 H2]; [lia|].
    destruct (parse_dict_loop fuel constants lines (i + 1) 0 [])
      as [[nd next]| |]; cbn [bind]; [|discriminate|contradiction].
    specialize (H2 nd next eq_refl). apply IH. lia. }
  assert (Hsimple : forall key value_part,
             (do v <- parse_value constants value_part;
              parse_loop fuel constants lines (i + 1) (dict_set data key v))
             <> OutOfFuel).
  { intros key value_part.
    pose proof (parse_value_total constants value_part) as Hv.
    destruct (parse_value constants value_part) as [v| |]; cbn [bind];
      [apply Hnext|discriminate|contradiction]. }
  cbv zeta. split_tests;
    try apply Hnext; try apply Hnested; try apply Hsimple.
Qed.

Lemma define_loop_total :
  forall (found : list (list str)) (constants : dict),
    define_loop found constants <> OutOfFuel.
Proof.
  induction found as [|groups found IH]; intros constants; cbn [define_loop].
  - discriminate.
  - pose proof (parse_value_total constants (strip (nth 1 groups []))) as Hv.
    destruct (parse_value constants (strip (nth 1 groups []))); cbn [bind];
      [apply IH|discriminate|contradiction].
Qed.

(** The recursion budget of the model is never used up: on every text,
    [parse] returns a table or raises [ValueError]. *)
Theorem parse_total :
  forall text : str,
    (exists data, parse text = Ok data) \/ parse text = ValueError.
Proof.
  intros text. unfold parse.
  pose proof (define_loop_total
                (Re.finditer define_pattern (clean_text text)) []) as Hc.
  unfold parse_constants.
  destruct (define_loop _ []) as [constants| |]; cbn [bind];
    [|now right|contradiction].
  pose proof (parse_loop_total (S (List.length (data_lines text))) constants
                (data_lines text) 0 []) as Hd.
  unfold parse_data.
  destruct (parse_loop _ constants (data_lines text) 0 []) as [data| |];
    cbn [bind]; [left; eauto|now right|].
  exfalso. apply Hd; [lia|reflexivity].
Qed.

End Totality.

Module KeyFacts.

Import PyStr ConfigParser DictFacts Totality.

Lemma dict_set_keys :
  forall (d : dict) (k : str) (v : value),
    map fst (dict_set d k v)
    = if dict_mem d k then map fst d else map fst d ++ [k].
Proof.
  unfold dict_mem.
  induction d as [|[k' v'] d IH]; intros k v; simpl; [reflexivity|].
  destruct (str_eqb k' k) eqn:E; simpl; [reflexivity|].
  rewrite IH. now destruct (dict_get d k).
Qed.

(** An assignment keeps the keys of a dictionary distinct. *)
Lemma dict_set_NoDup :
  forall (d : dict) (k : str) (v : value),
    NoDup (map fst d) -> NoDup (map fst (dict_set d k v)).
Proof.
  intros d k v H. rewrite dict_set_keys. unfold dict_mem.
  destruct (dict_get d k) eqn:E; [exact H|].
  apply NoDup_app; [exact H|repeat constructor; tauto|].
  intros x Hx [Heq|[]]. subst x. now apply (TomlFacts.dict_get_None d k E).
Qed.

Lemma add_constants_NoDup :
  forall (constants data : dict),
    NoDup (map fst data) -> NoDup (map fst (add_constants constants data)).
Proof.
  induction constants as [|[key v] constants IH]; intros data H; simpl;
    [exact H|].
  apply IH. destruct (dict_mem data key); [exact H|].
  now apply dict_set_NoDup.
Qed.

Lemma parse_loop_NoDup :
  forall (fuel : nat) (constants : dict) (lines : list str) (i : nat)
         (data root : dict),
    NoDup (map fst data) ->
    parse_loop fuel constants lines i data = Ok root ->
    NoDup (map fst root).
Proof.
  induction fuel as [|fuel IH]; intros constants lines i data root Hd;
    [discriminate|].
  cbn [parse_loop].
  destruct (nth_error lines i) as [raw|];
    [|intros E; injection E as <-; exact Hd].
  assert (Hnested : forall key,
             (do (nested_dict, next_idx) <-
                 parse_dict fuel constants lines (i + 1) 0;
              parse_loop fuel constants lines next_idx
                (dict_set data key (VDict nested_dict))) = Ok root ->
             NoDup (map fst root)).
  { intros key.
    destruct (parse_dict fuel constants lines (i + 1) 0) as [[nd next]| |];
      cbn [bind]; try discriminate.
    apply IH. now apply dict_set_NoDup. }
  assert (Hsimple : forall key value_part,
             (do v <- parse_value constants value_part;
              parse_loop fuel constants lines (i + 1) (dict_set data key v))
             = Ok root -> NoDup (map fst root)).
  { intros key value_part.
    destruct (parse_value constants value_part) as [v| |]; cbn [bind];
      try discriminate.
    apply IH. now apply dict_set_NoDup. }
  cbv zeta. split_tests;
    try apply Hnested; try apply Hsimple; now apply IH.
Qed.

(** The root table that [parse] returns has distinct keys. *)
Lemma parse_keys_distinct :
  forall (text : str) (root : dict),
    parse text = Ok root -> NoDup (map fst root).
Proof.
  intros text root H. unfold parse in H.
  destruct (parse_constants text) as [constants| |]; cbn [bind] in H;
    try discriminate.
  destruct (parse_data constants text) as [data| |] eqn:E; cbn [bind] in H;
    try discriminate.
  injection H as <-. apply add_constants_NoDup.
  unfold parse_data in E.
  eapply parse_loop_NoDup; [|exact E]. constructor.
Qed.

End KeyFacts.

Module StrFacts.

Import PyStr.

Lemma app_last_cons :
  forall (A : Type) (x : list A) (c : A), exists a r, x ++ [c] = a :: r.
Proof.
  intros A [|a x] c; simpl; eauto.
Qed.

Lemma rstrip_last :
  forall (x : str) (c : ascii),
    isspace c = false -> rstrip (x ++ [c]) = x ++ [c].
Proof.
  induction x as [|a x IH]; intros c H; simpl.
  - now rewrite H.
  - rewrite (IH c H). destruct (app_last_cons _ x c) as (b & r & E).
    now rewrite E.
Qed.

Lemma rstrip_space_last :
  forall (x : str) (c : ascii),
    isspace c = true -> rstrip (x ++ [c]) = rstrip x.
Proof.
  induction x as [|a x IH]; intros c H; simpl.
  - now rewrite H.
  - now rewrite (IH c H).
Qed.

Lemma endswith_last :
  forall (x : str) (c c' : ascii), endswith (x ++ [c]) c' = Ascii.eqb c c'.
Proof.
  induction x as [|a x IH]; intros c c'; simpl; [reflexivity|].
  destruct (app_last_cons _ x c) as (b & r & E).
  rewrite E, <- E. apply IH.
Qed.

Lemma contains_app :
  forall (c : ascii) (a b : str),
    contains c (a ++ b) = contains c a || contains c b.
Proof.
  intros c a b. unfold contains. apply existsb_app.
Qed.

Lemma contains_false :
  forall (c : ascii) (s : str),
    contains c s = false <-> Forall (fun x => x <> c) s.
Proof.
  intros c. induction s as [|x s IH]; simpl; split; intros H.
  - constructor.
  - reflexivity.
  - apply orb_false_iff in H. destruct H as [Hx Hs].
    constructor; [|now apply IH].
    apply Ascii.eqb_neq in Hx. congruence.
  - inversion H as [|? ? Hx Hs]; subst. apply orb_false_iff. split.
    + apply Ascii.eqb_neq. congruence.
    + now apply IH.
Qed.

Lemma before_app :
  forall (c : ascii) (k rest : str),
    contains c k = false -> before c (k ++ c :: rest) = k.
Proof.
  intros c k rest. induction k as [|x k IH]; simpl; intros H.
  - now rewrite Ascii.eqb_refl.
  - apply orb_false_iff in H. destruct H as [Hx Hk].
    rewrite Ascii.eqb_sym, Hx. now rewrite IH.
Qed.

Lemma after_app :
  forall (c : ascii) (k rest : str),
    contains c k = false -> after c (k ++ c :: rest) = rest.
Proof.
  intros c k rest. induction k as [|x k IH]; simpl; intros H.
  - now rewrite Ascii.eqb_refl.
  - apply orb_false_iff in H. destruct H as [Hx Hk].
    rewrite Ascii.eqb_sym, Hx. now apply IH.
Qed.

Lemma split_whole :
  forall (c : ascii) (l : str), contains c l = false -> split c l = [l].
Proof.
  intros c. induction l as [|x l IH]; simpl; intros H; [reflexivity|].
  apply orb_false_iff in H. destruct H as [Hx Hl].
  rewrite Ascii.eqb_sym, Hx, (IH Hl). reflexivity.
Qed.

Lemma split_app :
  forall (c : ascii) (l rest : str),
    contains c l = false -> split c (l ++ c :: rest) = l :: split c rest.
Proof.
  intros c l rest. induction l as [|x l IH]; simpl; intros H.
  - now rewrite Ascii.eqb_refl.
  - apply orb_false_iff in H. destruct H as [Hx Hl].
    rewrite Ascii.eqb_sym, Hx, (IH Hl). reflexivity.
Qed.

Lemma split_join :
  forall (c : ascii) (ls : list str),
    ls <> [] ->
    Forall (fun l => contains c l = false) ls ->
    split c (join [c] ls) = ls.
Proof.
  intros c ls Hne H. induction H as [|l ls Hl Hls IH]; [contradiction|].
  destruct ls as [|l' ls].
  - simpl. now apply split_whole.
  - change (join [c] (l :: l' :: ls)) with (l ++ c :: join [c] (l' :: ls)).
    rewrite (split_app c l _ Hl). f_equal. apply IH. discriminate.
Qed.

Lemma contains_join :
  forall (c : ascii) (sep : str) (ls : list str),
    contains c sep = false ->
    Forall (fun l => contains c l = false) ls ->
    contains c (join sep ls) = false.
Proof.
  intros c sep ls Hsep H. induction H as [|l ls Hl Hls IH]; [reflexivity|].
  destruct ls as [|l' ls]; [exact Hl|].
  change (join sep (l :: l' :: ls)) with (l ++ sep ++ join sep (l' :: ls)).
  now rewrite !contains_app, Hl, Hsep, IH.
Qed.

Lemma lstrip_head :
  forall (c : ascii) (s : str), isspace c = false -> lstrip (c :: s) = c :: s.
Proof.
  intros c s H. simpl. now rewrite H.
Qed.

End StrFacts.

Module NumFacts.

Import PyStr.

Local Open Scope N_scope.

Lemma digit_char_facts :
  forall d : N,
    d < 10 ->
    digit_value (digit_char d) = d /\ isdecimal (digit_char d) = true.
Proof.
  intros d H. unfold digit_value, isdecimal, digit_char, ord.
  rewrite N_ascii_embedding by lia. split; [lia|].
  apply andb_true_iff. split; apply N.leb_le; lia.
Qed.

Lemma digits_fuel_value :
  forall (fuel : nat) (n : N) (acc : str),
    n < 2 ^ N.of_nat fuel ->
    fold_left step (digits_fuel fuel n acc) 0 = fold_left step acc n.
Proof.
  induction fuel as [|fuel IH]; intros n acc H.
  - simpl in *. assert (n = 0) as -> by lia. reflexivity.
  - cbn [digits_fuel].
    assert (Hmod : n mod 10 < 10) by (apply N.mod_lt; lia).
    destruct (N.ltb_spec n 10) as [L|G].
    + cbn [fold_left]. unfold step at 2.
      rewrite (proj1 (digit_char_facts _ Hmod)).
      rewrite N.mod_small by exact L. reflexivity.
    + rewrite IH.
      * cbn [fold_left]. unfold step at 2.
        rewrite (proj1 (digit_char_facts _ Hmod)).
        f_equal. rewrite (N.div_mod n 10) at 3 by lia. lia.
      * apply N.Div0.div_lt_upper_bound.
        rewrite Nat2N.inj_succ, N.pow_succ_r' in H. lia.
Qed.

Lemma digits_fuel_decimal :
  forall (fuel : nat) (n : N) (acc : str),
    Forall (fun c => isdecimal c = true) acc ->
    Forall (fun c => isdecimal c = true) (digits_fuel fuel n acc).
Proof.
  induction fuel as [|fuel IH]; intros n acc H; cbn [digits_fuel].
  - exact H.
  - assert (H' : Forall (fun c => isdecimal c = true)
                        (digit_char (n mod 10) :: acc)).
    { constructor; [|exact H].
      apply digit_char_facts, N.mod_lt. lia. }
    destruct (n <? 10); [exact H'|now apply IH].
Qed.

Lemma digits_fuel_not_empty :
  forall (fuel : nat) (n : N) (acc : str),
    acc <> [] -> digits_fuel fuel n acc <> [].
Proof.
  induction fuel as [|fuel IH]; intros n acc H; cbn [digits_fuel].
  - exact H.
  - destruct (n <? 10); [discriminate|]. apply IH. discriminate.
Qed.

(** The digits of a number read back as the number. *)
Lemma N_of_digits_str_of_N : forall n : N, N_of_digits (str_of_N n) = n.
Proof.
  intros n. unfold N_of_digits, str_of_N.
  rewrite digits_fuel_value; [reflexivity|].
  rewrite Nat2N.inj_succ, N2Nat.id.
  destruct n as [|p]; [reflexivity|]. apply N.log2_spec. reflexivity.
Qed.

Lemma str_of_N_decimal :
  forall n : N, Forall (fun c => isdecimal c = true) (str_of_N n).
Proof.
  intros n. apply digits_fuel_decimal. constructor.
Qed.

Lemma str_of_N_not_empty : forall n : N, str_of_N n <> [].
Proof.
  intros n. unfold str_of_N. cbn [digits_fuel].
  destruct (n <? 10); [discriminate|].
  apply digits_fuel_not_empty. discriminate.
Qed.

End NumFacts.

Module RenderFacts.

Import PyStr ConfigParser TOMLConverter Spec StrFacts NumFacts DefineFacts.

Lemma decimal_facts :
  forall c : ascii,
    isdecimal c = true ->
    isspace c = false /\ Ascii.eqb c dquote = false
    /\ Ascii.eqb c squote = false /\ c <> ";"%char /\ c <> "{"%char
    /\ isdigit_char c = true /\ contains c marks = false.
Proof.
  intros c. by_character c.
Qed.

Lemma safe_facts :
  forall c : ascii,
    safe_char c = true -> escape_char c = [c] /\ contains c marks = false.
Proof.
  intros c. by_character c.
Qed.

Lemma escape_string_safe :
  forall s : str, forallb safe_char s = true -> escape_string s = s.
Proof.
  induction s as [|c s IH]; simpl; intros H; [reflexivity|].
  apply andb_true_iff in H. destruct H as [Hc Hs].
  unfold escape_string in *. simpl.
  rewrite (proj1 (safe_facts c Hc)), (IH Hs). reflexivity.
Qed.

Lemma strip_after_space :
  forall (x : str) (a c : ascii),
    isspace a = false -> isspace c = false ->
    strip (" "%char :: a :: x ++ [c]) = a :: x ++ [c].
Proof.
  intros x a c Ha Hc. unfold strip.
  change (" "%char :: a :: x ++ [c]) with ((" "%char :: a :: x) ++ [c]).
  rewrite (rstrip_last _ c Hc). simpl. now rewrite Ha.
Qed.

Lemma endswith_cons_last :
  forall (x : str) (a c c' : ascii),
    endswith (a :: x ++ [c]) c' = Ascii.eqb c c'.
Proof.
  intros x a c c'. apply (endswith_last (a :: x) c c').
Qed.
(** The text of a quoted string, after a space, is read back as the string
    between the quotes. *)
Lemma parse_value_quoted :
  forall (constants : dict) (s : str),
    parse_value constants (" "%char :: dquote :: s ++ [dquote]) = Ok (VStr s).
Proof.
  intros constants s. unfold parse_value, parse_value_fuel.
  rewrite (strip_after_space s dquote dquote eq_refl eq_refl).
  rewrite endswith_cons_last.
  change (Ascii.eqb dquote ";") with false. cbv iota.
  unfold is_quoted. rewrite !endswith_cons_last.
  cbn [is_empty startswith]. rewrite Ascii.eqb_refl. cbn [andb orb].
  unfold inner. cbn [tl]. now rewrite removelast_last.
Qed.
Lemma last_decompose :
  forall (P : ascii -> Prop) (s : str),
    s <> [] -> Forall P s -> exists x c, s = x ++ [c] /\ P c.
Proof.
  intros P s Hne H. exists (removelast s), (last s " "%char).
  pose proof (app_removelast_last " "%char Hne) as E. split; [exact E|].
  rewrite E in H. apply Forall_app in H. destruct H as [_ H].
  now inversion H.
Qed.

(** A string of decimal digits, after a space, is read back as its value. *)
Lemma parse_value_digits :
  forall (constants : dict) (ds : str),
    ds <> [] -> Forall (fun c => isdecimal c = true) ds ->
    parse_value constants (" "%char :: ds)
    = Ok (VInt (Z.of_N (N_of_digits ds))).
Proof.
  intros constants ds Hne H.
  destruct (last_decompose _ ds Hne H) as (x & c & E & Hc).
  assert (Hall : forallb isdecimal ds = true).
  { apply forallb_forall. now apply Forall_forall. }
  assert (Hdig : forallb isdigit_char ds = true).
  { apply forallb_forall. intros y Hy. apply decimal_facts.
    rewrite Forall_forall in H. now apply H. }
  assert (Hend : endswith ds ";" = false).
  { destruct (endswith ds ";") eqn:E1; [|reflexivity].
    apply endswith_In in E1. rewrite Forall_forall in H.
    apply H, decimal_facts in E1. now destruct E1 as (_ & _ & _ & E1 & _). }
  destruct ds as [|a ds']; [contradiction|].
  assert (Ha : isdecimal a = true) by now inversion H.
  destruct (decimal_facts a Ha) as (Hsp & Hdq & Hsq & _).
  destruct (decimal_facts c Hc) as (Hspc & _).
  assert (Hstrip : strip (" "%char :: a :: ds') = a :: ds').
  { unfold strip. rewrite E.
    change (" "%char :: x ++ [c]) with ((" "%char :: x) ++ [c]).
    rewrite (rstrip_last _ c Hspc).
    change ((" "%char :: x) ++ [c]) with (" "%char :: (x ++ [c])).
    rewrite <- E. cbn [lstrip].
    change (isspace " "%char) with true. now rewrite Hsp. }
  unfold parse_value, parse_value_fuel. rewrite Hstrip, Hend.
  unfold is_quoted. cbn [is_empty startswith]. rewrite Hdq, Hsq.
  cbn [andb orb].
  unfold isdigit. rewrite Hdig. unfold int_of_str. now rewrite Hall.
Qed.

Section WithFloat.

Variable float_repr : str -> str.

(** What the line of a value that [value_ok] accepts is made of: the text
    reads back as the value, holds none of the marks, and ends with a
    character that is neither white space nor an opening brace. *)
Lemma render_value_ok :
  forall (constants : dict) (v : value),
    value_ok v = true ->
    parse_value constants (" "%char :: render_value float_repr v) = Ok v
    /\ Forall (fun c => contains c marks = false) (render_value float_repr v)
    /\ exists x c, render_value float_repr v = x ++ [c]
                   /\ isspace c = false /\ c <> "{"%char.
Proof.
  intros constants [s|n|lit|b|l|d] H; simpl in H; try discriminate.
  - (* a string *)
    cbn [render_value]. rewrite (escape_string_safe s H).
    split; [apply parse_value_quoted|]. split.
    + constructor; [reflexivity|]. apply Forall_app. split.
      * apply Forall_forall. intros c Hc. apply safe_facts.
        rewrite forallb_forall in H. now apply H.
      * now constructor.
    + exists (dquote :: s), dquote. repeat split. discriminate.
  - (* an integer *)
    apply Z.leb_le in H.
    assert (E : render_value float_repr (VInt n) = str_of_N (Z.to_N n)).
    { destruct n as [|p|p]; [reflexivity|reflexivity|lia]. }
    rewrite E.
    pose proof (str_of_N_decimal (Z.to_N n)) as Hdec.
    pose proof (str_of_N_not_empty (Z.to_N n)) as Hne.
    split.
    { rewrite (parse_value_digits constants _ Hne Hdec).
      rewrite N_of_digits_str_of_N. now rewrite Z2N.id. }
    split.
    { eapply Forall_impl; [|exact Hdec]. intros c Hc. now apply decimal_facts. }
    destruct (last_decompose _ _ Hne Hdec) as (x & c & Ex & Hc).
    exists x, c. split; [exact Ex|]. split; now apply decimal_facts.
  - (* a boolean *)
    destruct b.
    + split; [reflexivity|]. split.
      * repeat constructor.
      * exists ("tru" : str), "e"%char. repeat split. discriminate.
    + split; [reflexivity|]. split.
      * repeat constructor.
      * exists ("fals" : str), "e"%char. repeat split. discriminate.
Qed.

End WithFloat.

End RenderFacts.

Module LineFacts.

Import PyStr ConfigParser TOMLConverter Spec StrFacts RenderFacts.

Lemma contains_marked :
  forall (set s : str) (ch : ascii),
    In ch set ->
    Forall (fun c => contains c set = false) s ->
    contains ch s = false.
Proof.
  intros set s ch Hin H. apply contains_false.
  eapply Forall_impl; [|exact H].
  intros c Hc E. subst c.
  apply contains_false in Hc. rewrite Forall_forall in Hc.
  now apply (Hc ch Hin).
Qed.

(** What [key_ok] says of a key. *)
Lemma key_ok_facts :
  forall k : str,
    key_ok k = true ->
    (exists a k', k = a :: k' /\ isspace a = false)
    /\ (exists x c, k = x ++ [c] /\ isspace c = false)
    /\ Forall (fun c => contains c ("="%char :: marks) = false) k.
Proof.
  intros k H. unfold key_ok in H.
  repeat (apply andb_true_iff in H; destruct H as [H ?]).
  destruct k as [|a k']; [discriminate|].
  split; [|split].
  - exists a, k'. split; [reflexivity|].
    simpl in *. now destruct (isspace a).
  - exists (removelast (a :: k')), (last (a :: k') " "%char). split.
    + apply app_removelast_last. discriminate.
    + now destruct (isspace (last (a :: k') " "%char)).
  - apply Forall_forall. intros c Hc.
    match goal with
    | F : forallb _ _ = true |- _ => rewrite forallb_forall in F;
                                     specialize (F c Hc)
    end.
    now destruct (contains c ("="%char :: marks)).
Qed.

Section WithFloat.

Variable float_repr : str -> str.

(** The line of a key and a value of a flat table, as the loop of [parse]
    sees it. *)
Lemma line_shape :
  forall (constants : dict) (k : str) (v : value),
    key_ok k = true -> value_ok v = true ->
    let line := render_line float_repr [] k v in
    Forall (fun c => contains c marks = false) line
    /\ rstrip line = line
    /\ strip line = line
    /\ is_empty line = false
    /\ endswith line "{" = false
    /\ contains "=" line = true
    /\ split_key "=" line = k
    /\ parse_value constants (after "=" line) = Ok v.
Proof.
  intros constants k v Hk Hv line.
  destruct (key_ok_facts k Hk)
    as ((a & k' & Ea & Ha) & (x & c & Ex & Hc) & Hall).
  destruct (render_value_ok float_repr constants v Hv)
    as (Hparse & Hmarks & (y & e & Ey & He & Hbrace)).
  assert (Hkm : Forall (fun c => contains c marks = false) k).
  { eapply Forall_impl; [|exact Hall]. intros z Hz.
    simpl in Hz. apply orb_false_iff in Hz. apply Hz. }
  assert (Hkeq : contains "=" k = false).
  { apply (contains_marked ("="%char :: marks)); [now left|exact Hall]. }
  assert (El : line = k ++ " "%char :: "="%char :: " "%char
                         :: render_value float_repr v) by reflexivity.
  assert (Elast : line = (k ++ " "%char :: "="%char :: " "%char :: y) ++ [e]).
  { rewrite El, Ey, <- app_assoc. reflexivity. }
  assert (Erstrip : rstrip line = line).
  { rewrite Elast. now apply rstrip_last. }
  split.
  { rewrite El. apply Forall_app. split; [exact Hkm|].
    repeat (constructor; [reflexivity|]). exact Hmarks. }
  split; [exact Erstrip|].
  split.
  { unfold strip. rewrite Erstrip, El, Ea. simpl. now rewrite Ha. }
  split.
  { rewrite El, Ea. reflexivity. }
  split.
  { rewrite Elast, endswith_last. now apply Ascii.eqb_neq. }
  split.
  { rewrite El, contains_app. apply orb_true_iff. right. reflexivity. }
  assert (Esplit : line = (k ++ [" "%char]) ++ "="%char
                             :: " "%char :: render_value float_repr v).
  { rewrite El, <- app_assoc. reflexivity. }
  assert (Hks : contains "=" (k ++ [" "%char]) = false).
  { rewrite contains_app, Hkeq. reflexivity. }
  split.
  { unfold split_key. rewrite Esplit, (before_app _ _ _ Hks).
    unfold strip. rewrite (rstrip_space_last k " "%char eq_refl).
    rewrite Ex, (rstrip_last x c Hc), <- Ex, Ea. simpl. now rewrite Ha. }
  rewrite Esplit, (after_app _ _ _ Hks). exact Hparse.
Qed.

Lemma parse_loop_line :
  forall (constants : dict) (fuel : nat) (lines : list str) (i : nat)
         (data : dict) (k : str) (v : value),
    nth_error lines i = Some (render_line float_repr [] k v) ->
    key_ok k = true -> value_ok v = true ->
    parse_loop (S fuel) constants lines i data
    = parse_loop fuel constants lines (i + 1) (dict_set data k v).
Proof.
  intros constants fuel lines i data k v Hnth Hk Hv.
  destruct (line_shape constants k v Hk Hv)
    as (Hmarks & _ & Hstrip & Hempty & Hend & Heq & Hkey & Hparse).
  assert (Hcolon : contains ":" (render_line float_repr [] k v) = false).
  { apply (contains_marked marks); [now left|exact Hmarks]. }
  cbn [parse_loop]. rewrite Hnth. cbv zeta.
  rewrite Hstrip, Hempty, Hcolon, Hend, Heq, Hkey, Hparse.
  reflexivity.
Qed.

(** The loop of [parse] over the lines of a flat table binds the keys in the
    order of the lines. *)
Lemma parse_loop_lines :
  forall (constants : dict) (todo done : list (str * value)) (fuel : nat)
         (data : dict),
    Forall (fun kv => key_ok (fst kv) = true /\ value_ok (snd kv) = true)
           todo ->
    List.length todo < fuel ->
    parse_loop fuel constants
      (map (fun kv => render_line float_repr [] (fst kv) (snd kv))
           (done ++ todo))
      (List.length done) data
    = Ok (fold_left (fun acc kv => dict_set acc (fst kv) (snd kv)) todo data).
Proof.
  intros constants. induction todo as [|[k v] todo IH];
    intros done fuel data Hok Hfuel.
  - destruct fuel as [|fuel]; [inversion Hfuel|].
    cbn [parse_loop]. rewrite app_nil_r.
    replace (nth_error _ (List.length done)) with (@None str).
    + reflexivity.
    + symmetry. apply nth_error_None. now rewrite length_map.
  - destruct fuel as [|fuel]; [inversion Hfuel|].
    inversion Hok as [|? ? [Hk Hv] Hok']; subst. simpl in Hk, Hv.
    rewrite (parse_loop_line constants fuel _ (List.length done) data k v).
    + replace (List.length done + 1) with (List.length (done ++ [(k, v)]))
        by (rewrite length_app; reflexivity).
      replace (done ++ (k, v) :: todo) with ((done ++ [(k, v)]) ++ todo)
        by (rewrite <- app_assoc; reflexivity).
      rewrite IH; [reflexivity|exact Hok'|simpl in Hfuel; lia].
    + rewrite map_app, nth_error_app2 by (rewrite length_map; lia).
      rewrite length_map, Nat.sub_diag. reflexivity.
    + exact Hk.
    + exact Hv.
Qed.

End WithFloat.

End LineFacts.

Module ReparseFacts.

Import PyStr ConfigParser TOMLConverter Spec DictFacts StrFacts LineFacts.

Lemma define_pattern_head :
  forall (c : ascii) (s : str),
    c <> "("%char -> Re.match_here define_pattern (c :: s) = None.
Proof.
  intros c s H. apply Ascii.eqb_neq in H.
  unfold Re.match_here, define_pattern. cbn [Re.lits list_ascii_of_string].
  cbn [Re.rmatch]. now rewrite H.
Qed.

Lemma define_form_head :
  forall (c : ascii) (s : str),
    c <> "("%char -> Re.match_here define_form (c :: s) = None.
Proof.
  intros c s H. apply Ascii.eqb_neq in H.
  unfold Re.match_here, define_form. cbn [Re.lits list_ascii_of_string].
  cbn [Re.rmatch]. now rewrite H.
Qed.

(** A pattern that starts with an opening parenthesis matches nowhere in a
    text without one. *)
Lemma scan_plain :
  forall r : Re.regex,
    (forall c s, c <> "("%char -> Re.match_here r (c :: s) = None) ->
    forall s : str,
      contains "(" s = false -> Re.scan r s 0 = map Re.Plain s.
Proof.
  intros r Hr s H. apply contains_false in H.
  induction H as [|c s Hc Hs IH]; [reflexivity|].
  cbn [Re.scan]. rewrite (Hr c s Hc). cbn [map]. now rewrite IH.
Qed.

Lemma finditer_plain :
  forall s : str,
    contains "(" s = false -> Re.finditer define_pattern s = [].
Proof.
  intros s H. unfold Re.finditer.
  rewrite (scan_plain _ define_pattern_head s H).
  clear H. induction s as [|c s IH]; [reflexivity|exact IH].
Qed.

Lemma sub_empty_plain :
  forall s : str,
    contains "(" s = false -> Re.sub_empty define_form s = s.
Proof.
  intros s H. unfold Re.sub_empty.
  rewrite (scan_plain _ define_form_head s H).
  clear H. induction s as [|c s IH]; [reflexivity|].
  cbn [map flat_map app]. now rewrite IH.
Qed.

Lemma clean_lines_same :
  forall ls : list str,
    Forall (fun l => contains newline l = false /\ contains "#" l = false
                     /\ rstrip l = l /\ is_empty l = false) ls ->
    filter (fun line => negb (is_empty line)) (map clean_line ls) = ls.
Proof.
  induction 1 as [|l ls (_ & Hh & Hr & He) Hls IH]; [reflexivity|].
  assert (E : clean_line l = l) by (unfold clean_line; now rewrite Hh, Hr).
  cbn [map filter]. rewrite E, He. cbn [negb]. now rewrite IH.
Qed.

Lemma clean_text_lines :
  forall ls : list str,
    ls <> [] ->
    Forall (fun l => contains newline l = false /\ contains "#" l = false
                     /\ rstrip l = l /\ is_empty l = false) ls ->
    clean_text (join [newline] ls) = join [newline] ls.
Proof.
  intros ls Hne H. unfold clean_text.
  rewrite split_join; [|exact Hne|].
  - now rewrite clean_lines_same.
  - eapply Forall_impl; [|exact H]. now intros l (Hn & _).
Qed.

Lemma dict_set_fresh :
  forall (d : dict) (k : str) (v : value),
    ~ In k (map fst d) -> dict_set d k v = d ++ [(k, v)].
Proof.
  induction d as [|[k' v'] d IH]; intros k v H; simpl; [reflexivity|].
  simpl in H. destruct (str_eqb k' k) eqn:E.
  - apply str_eqb_eq in E. tauto.
  - f_equal. apply IH. tauto.
Qed.

Lemma fold_dict_set :
  forall (todo acc : dict),
    NoDup (map fst acc ++ map fst todo) ->
    fold_left (fun d kv => dict_set d (fst kv) (snd kv)) todo acc
    = acc ++ todo.
Proof.
  induction todo as [|[k v] todo IH]; intros acc H; simpl.
  - now rewrite app_nil_r.
  - simpl in H. pose proof (NoDup_remove_2 _ _ _ H) as Hk.
    rewrite dict_set_fresh by (intros F; apply Hk, in_or_app; now left).
    rewrite IH.
    + now rewrite <- app_assoc.
    + rewrite map_app, <- app_assoc. exact H.
Qed.

End ReparseFacts.

Module IdempotenceFacts.

Import PyStr ConfigParser TOMLConverter Spec Examples DictFacts OrderFacts.
Import TomlFacts StrFacts LineFacts ReparseFacts.

Section WithFloat.

Variable float_repr : str -> str.

Lemma parse_flat_lines :
  forall entries : dict,
    NoDup (map fst entries) ->
    Forall entry_ok entries ->
    parse (join [newline]
             (map (fun kv => render_line float_repr [] (fst kv) (snd kv))
                  entries))
    = Ok entries.
Proof.
  intros entries Hnd Hok.
  destruct entries as [|kv entries]; [reflexivity|].
  set (es := kv :: entries) in *.
  set (ls := map (fun kv => render_line float_repr [] (fst kv) (snd kv)) es).
  assert (Hne : ls <> []) by discriminate.
  assert (Hls : Forall (fun l => Forall (fun c => contains c marks = false) l
                                 /\ rstrip l = l /\ is_empty l = false) ls).
  { unfold ls. apply Forall_map. eapply Forall_impl; [|exact Hok].
    intros [k v] [Hk Hv].
    destruct (line_shape float_repr [] k v Hk Hv) as (H1 & H2 & _ & H4 & _).
    auto. }
  assert (Hclean : clean_text (join [newline] ls) = join [newline] ls).
  { apply clean_text_lines; [exact Hne|].
    eapply Forall_impl; [|exact Hls]. intros l (Hm & Hr & He).
    split; [|split; [|split]]; try assumption.
    - apply (contains_marked marks); [|exact Hm]. simpl. tauto.
    - apply (contains_marked marks); [|exact Hm]. simpl. tauto. }
  assert (Hparen : contains "(" (join [newline] ls) = false).
  { apply contains_join; [reflexivity|].
    eapply Forall_impl; [|exact Hls]. intros l (Hm & _).
    apply (contains_marked marks); [|exact Hm]. simpl. tauto. }
  assert (Hsplit : split newline (join [newline] ls) = ls).
  { apply split_join; [exact Hne|].
    eapply Forall_impl; [|exact Hls]. intros l (Hm & _).
    apply (contains_marked marks); [|exact Hm]. simpl. tauto. }
  unfold parse, parse_constants, parse_data, data_lines.
  rewrite Hclean, (finditer_plain _ Hparen), (sub_empty_plain _ Hparen).
  rewrite Hsplit. cbn [define_loop bind].
  pose proof (parse_loop_lines float_repr [] es [] (S (List.length ls)) []
                Hok) as Hloop.
  cbn [app List.length] in Hloop. fold ls in Hloop.
  rewrite Hloop by (unfold ls; rewrite length_map; lia).
  cbn [bind add_constants]. f_equal.
  now apply (fold_dict_set es []).
Qed.

Lemma flat_table_facts :
  forall data : dict,
    flat_table data = true ->
    Forall entry_ok data
    /\ simple_keys data = map fst data /\ dict_keys data = [].
Proof.
  intros data H. unfold flat_table in H.
  rewrite forallb_forall in H.
  assert (Hok : Forall entry_ok data).
  { apply Forall_forall. intros kv Hkv.
    specialize (H kv Hkv). apply andb_true_iff in H. exact H. }
  split; [exact Hok|].
  clear H. unfold simple_keys, dict_keys.
  induction Hok as [|[k v] data [_ Hv] Hok [IH1 IH2]]; [now split|].
  simpl in Hv. cbn [filter map snd fst].
  assert (E : is_dict v = false) by (destruct v; try reflexivity; discriminate).
  rewrite E. cbn [negb map fst]. now rewrite IH1, IH2.
Qed.

(** The serialization of a flat table is parsed and serialized back to
    itself. *)
Lemma convert_flat_table :
  forall data : dict,
    NoDup (map fst data) ->
    flat_table data = true ->
    convert float_repr (to_toml float_repr data 0 [])
    = Ok (to_toml float_repr data 0 []).
Proof.
  intros data Hnd H.
  destruct (flat_table_facts data H) as (Hok & Hs & Hd).
  destruct (Permutation_map_inv fst data (sort_perm (map fst data)))
    as (entries & Ekeys & Hperm).
  assert (Hout : to_toml float_repr data 0 []
                 = join [newline]
                     (map (fun kv => render_line float_repr [] (fst kv)
                                                 (snd kv)) entries)).
  { rewrite to_toml_unfold, Hs, Hd. cbn [sort flat_map].
    rewrite app_nil_r, Ekeys, map_map. f_equal.
    apply map_ext_in. intros [k v] Hin. unfold simple_line. cbn [fst snd].
    rewrite (In_dict_get data k v Hnd); [reflexivity|].
    eapply Permutation_in; [apply Permutation_sym, Hperm|exact Hin]. }
  assert (Hnd' : NoDup (map fst entries)).
  { eapply Permutation_NoDup; [apply Permutation_map, Hperm|exact Hnd]. }
  assert (Hok' : Forall entry_ok entries).
  { eapply Permutation_Forall; [exact Hperm|exact Hok]. }
  unfold convert. rewrite Hout at 1.
  rewrite (parse_flat_lines entries Hnd' Hok'). cbn [bind].
  f_equal. now apply to_toml_permuted.
Qed.

(** C4, as the source has it: when the table that [parse] returns is flat,
    with keys and values that the parser reads back from their lines, the
    conversion of the converted text is the converted text. *)
Theorem convert_idempotent_on_flat_tables :
  forall (text : str) (data : dict),
    parse text = Ok data ->
    flat_table data = true ->
    (do out <- convert float_repr text; convert float_repr out)
    = convert float_repr text.
Proof.
  intros text data Hparse Hflat. unfold convert at 1 3.
  rewrite Hparse. cbn [bind].
  apply convert_flat_table; [|exact Hflat].
  now apply (KeyFacts.parse_keys_distinct text).
Qed.

End WithFloat.

Lemma convert_idempotent_on_flat_tables_witness :
  (parse flat_text = Ok [("b" : str, VInt 2); ("a" : str, VBool true)]
   /\ flat_table [("b" : str, VInt 2); ("a" : str, VBool true)] = true)
  /\ (do out <- convert literal_repr flat_text; convert literal_repr out)
     = convert literal_repr flat_text.
Proof.
  split; [split; reflexivity|].
  apply (convert_idempotent_on_flat_tables literal_repr flat_text
           [("b" : str, VInt 2); ("a" : str, VBool true)]);
    reflexivity.
Defined.

Lemma array_text_eval :
  forall float_repr : str -> str,
    convert float_repr array_text = Ok array_output
    /\ convert float_repr array_output = Ok array_output_again.
Proof.
  intros float_repr. split; vm_compute; reflexivity.
Qed.

(** C4 fails as stated: the conversion writes an array between square
    brackets, and reads the bracketed text back as a string. *)
Lemma convert_not_idempotent_on_arrays :
  ~ exists float_repr : str -> str,
      (do out <- convert float_repr array_text; convert float_repr out)
      = convert float_repr array_text.
Proof.
  intros [float_repr H].
  destruct (array_text_eval float_repr) as [E1 E2].
  rewrite E1 in H. cbn [bind] in H. rewrite E2 in H. discriminate H.
Qed.

End IdempotenceFacts.

Module CleanFacts.

Import PyStr ConfigParser StrFacts ReparseFacts.

Lemma split_no_separator :
  forall (c : ascii) (s : str),
    Forall (fun l => contains c l = false) (split c s).
Proof.
  intros c. induction s as [|x s IH]; simpl.
  - repeat constructor.
  - destruct (Ascii.eqb x c) eqn:E.
    + constructor; [reflexivity|exact IH].
    + destruct (split c s) as [|w ws]; inversion IH; subst.
      * repeat constructor. simpl. now rewrite Ascii.eqb_sym, E.
      * constructor; [|assumption]. simpl.
        rewrite Ascii.eqb_sym, E. assumption.
Qed.

Lemma before_Forall :
  forall (P : ascii -> Prop) (c : ascii) (s : str),
    Forall P s -> Forall P (before c s).
Proof.
  intros P c s H. induction H as [|x s Hx Hs IH]; simpl; [constructor|].
  destruct (Ascii.eqb x c); constructor; assumption.
Qed.

Lemma rstrip_Forall :
  forall (P : ascii -> Prop) (s : str), Forall P s -> Forall P (rstrip s).
Proof.
  intros P s H. induction H as [|x s Hx Hs IH]; simpl; [constructor|].
  destruct (rstrip s) as [|a r].
  - destruct (isspace x); repeat constructor; assumption.
  - now constructor.
Qed.

Lemma lstrip_Forall :
  forall (P : ascii -> Prop) (s : str), Forall P s -> Forall P (lstrip s).
Proof.
  intros P s H. induction H as [|x s Hx Hs IH]; simpl; [constructor|].
  destruct (isspace x); [exact IH|now constructor].
Qed.

Lemma before_no_separator :
  forall (c : ascii) (s : str), contains c (before c s) = false.
Proof.
  intros c. induction s as [|x s IH]; simpl; [reflexivity|].
  destruct (Ascii.eqb x c) eqn:E; [reflexivity|].
  simpl. now rewrite Ascii.eqb_sym, E.
Qed.

(** What [rstrip] returns is empty or ends with a character that is not
    white space. *)
Lemma rstrip_cases :
  forall s : str,
    rstrip s = []
    \/ exists x c, rstrip s = x ++ [c] /\ isspace c = false.
Proof.
  induction s as [|a s IH]; simpl; [now left|].
  destruct IH as [E|(x & c & E & Hc)]; rewrite E.
  - destruct (isspace a) eqn:Ha; [now left|].
    right. exists [], a. now split.
  - right. destruct (app_last_cons _ x c) as (b & r & Eb). rewrite Eb.
    exists (a :: x), c. split; [|exact Hc]. simpl. now rewrite Eb.
Qed.

Lemma rstrip_idempotent : forall s : str, rstrip (rstrip s) = rstrip s.
Proof.
  intros s. destruct (rstrip_cases s) as [E|(x & c & E & Hc)]; rewrite E.
  - reflexivity.
  - now apply rstrip_last.
Qed.

Lemma clean_line_facts :
  forall line : str,
    contains newline line = false ->
    contains newline (clean_line line) = false
    /\ contains "#" (clean_line line) = false
    /\ rstrip (clean_line line) = clean_line line.
Proof.
  intros line Hn. unfold clean_line. split; [|split].
  - apply contains_false, rstrip_Forall.
    destruct (contains "#" line); [apply before_Forall|];
      now apply contains_false.
  - apply contains_false, rstrip_Forall, contains_false.
    destruct (contains "#" line) eqn:E; [apply before_no_separator|exact E].
  - apply rstrip_idempotent.
Qed.

(** The lines that [clean_text] joins. *)
Lemma cleaned_lines :
  forall text : str,
    Forall (fun l => contains newline l = false /\ contains "#" l = false
                     /\ rstrip l = l /\ is_empty l = false)
           (filter (fun line => negb (is_empty line))
                   (map clean_line (split newline text))).
Proof.
  intros text. apply Forall_forall. intros l Hl.
  apply filter_In in Hl. destruct Hl as [Hin Hne].
  apply in_map_iff in Hin. destruct Hin as (line & <- & Hline).
  pose proof (split_no_separator newline text) as Hs.
  rewrite Forall_forall in Hs.
  destruct (clean_line_facts line (Hs line Hline)) as (H1 & H2 & H3).
  repeat split; try assumption. now apply negb_true_iff.
Qed.

(** X1: the text that [clean_text] returns holds no comment mark, and when
    it is not empty none of its lines is empty or ends with white space. *)
Theorem clean_text_has_no_comment :
  forall text : str,
    contains "#" (clean_text text) = false
    /\ (clean_text text <> [] ->
        Forall (fun l => l <> [] /\ rstrip l = l)
               (split newline (clean_text text))).
Proof.
  intros text. pose proof (cleaned_lines text) as H. unfold clean_text.
  set (ls := filter _ _) in *. split.
  - apply contains_join; [reflexivity|].
    eapply Forall_impl; [|exact H]. now intros l (_ & Hh & _).
  - intros Hne. rewrite split_join.
    + eapply Forall_impl; [|exact H]. intros l (_ & _ & Hr & He).
      split; [|exact Hr]. intros ->. discriminate.
    + intros E. apply Hne. now rewrite E.
    + eapply Forall_impl; [|exact H]. now intros l (Hn & _).
Qed.

(** X2: cleaning a cleaned text changes nothing. *)
Theorem clean_text_idempotent :
  forall text : str, clean_text (clean_text text) = clean_text text.
Proof.
  intros text. pose proof (cleaned_lines text) as H.
  unfold clean_text at 2 3. set (ls := filter _ _) in *.
  destruct ls as [|l ls']; [reflexivity|].
  apply clean_text_lines; [discriminate|exact H].
Qed.

End CleanFacts.

Module EscapeCoverage.

Import PyStr TOMLConverter Coverage.

Lemma unescape_head_escape_char :
  forall (c : ascii) (rest : str),
    unescape_head (escape_char c ++ rest) = Some (c, rest).
Proof.
  intros c rest.
  destruct c as [[] [] [] [] [] [] [] []]; vm_compute; reflexivity.
Qed.

Lemma escape_char_not_empty : forall c : ascii, escape_char c <> [].
Proof.
  intros c. destruct c as [[] [] [] [] [] [] [] []]; vm_compute; discriminate.
Qed.

Lemma escape_string_cons :
  forall (c : ascii) (s : str),
    escape_string (c :: s) = escape_char c ++ escape_string s.
Proof.
  reflexivity.
Qed.

(** X3: [escape_string] loses nothing: two strings with the same escaped
    text are the same string. *)
Theorem escape_string_injective :
  forall a b : str, escape_string a = escape_string b -> a = b.
Proof.
  induction a as [|c a IH]; intros [|d b] H.
  - reflexivity.
  - rewrite escape_string_cons in H.
    change (escape_string []) with (@nil ascii) in H.
    symmetry in H. apply app_eq_nil in H.
    destruct H as [H _]. now apply escape_char_not_empty in H.
  - rewrite escape_string_cons in H.
    change (escape_string []) with (@nil ascii) in H.
    apply app_eq_nil in H.
    destruct H as [H _]. now apply escape_char_not_empty in H.
  - rewrite !escape_string_cons in H.
    pose proof (unescape_head_escape_char c (escape_string a)) as Hc.
    rewrite H, unescape_head_escape_char in Hc.
    injection Hc as -> Hab. f_equal. apply IH. now symmetry.
Qed.

Lemma escape_string_injective_witness :
  escape_string [newline] = escape_string [newline]
  /\ [newline] = [newline].
Proof.
  split; [reflexivity|].
  apply (escape_string_injective [newline] [newline]). reflexivity.
Defined.

Lemma well_escaped_escape_char :
  forall (c : ascii) (rest : str),
    well_escaped (escape_char c ++ rest) = well_escaped rest.
Proof.
  intros c rest.
  destruct c as [[] [] [] [] [] [] [] []]; reflexivity.
Qed.

(** X4: the text of [escape_string] is a well-formed body of a double-quoted
    string: it holds no character below 32, and a double quote only after a
    backslash that escapes it. *)
Theorem escape_string_well_escaped :
  forall s : str, well_escaped (escape_string s) = true.
Proof.
  induction s as [|c s IH]; [reflexivity|].
  rewrite escape_string_cons, well_escaped_escape_char. exact IH.
Qed.

End EscapeCoverage.

Module ErrorFacts.

Import PyStr ConfigParser Coverage Totality CleanFacts.

Lemma plain_strip : forall s : str, plain s -> plain (strip s).
Proof.
  intros s H. unfold strip. now apply lstrip_Forall, rstrip_Forall.
Qed.

Lemma plain_removelast : forall s : str, plain s -> plain (removelast s).
Proof.
  intros s H. induction H as [|c s Hc Hs IH]; [constructor|].
  destruct s as [|d s]; [constructor|].
  change (removelast (c :: d :: s)) with (c :: removelast (d :: s)).
  now constructor.
Qed.

Lemma plain_inner : forall s : str, plain s -> plain (inner s).
Proof.
  intros s H. unfold inner. apply plain_removelast.
  destruct H; [constructor|assumption].
Qed.

Lemma plain_after :
  forall (c : ascii) (s : str), plain s -> plain (after c s).
Proof.
  intros c s H. induction H as [|x s Hx Hs IH]; simpl; [constructor|].
  destruct (Ascii.eqb x c); assumption.
Qed.

Lemma int_of_str_plain :
  forall s : str, plain s -> isdigit s = true -> int_of_str s <> ValueError.
Proof.
  intros s H Hd. unfold int_of_str.
  assert (E : forallb isdecimal s = true).
  { unfold isdigit in Hd. destruct s as [|c s]; [discriminate|].
    rewrite forallb_forall in *. intros x Hx.
    specialize (Hd x Hx). unfold plain in H. rewrite Forall_forall in H.
    specialize (H x Hx). unfold plain_char in H. rewrite Hd in H.
    exact H. }
  rewrite E. discriminate.
Qed.

Lemma scan_items_plain :
  forall pv : str -> outcome value,
    (forall t, plain t -> pv t <> ValueError) ->
    forall (content : str) (st : scan_state),
      plain content -> plain (current st) ->
      scan_items pv content st <> ValueError
      /\ forall st', scan_items pv content st = Ok st' -> plain (current st').
Proof.
  intros pv Hpv content st Hc. revert st.
  induction Hc as [|char rest Hchar Hrest IH]; intros st Hcur.
  - split; [discriminate|]. intros st' E. now injection E as <-.
  - assert (Hkeep : forall q qc bc,
               plain (current (mk_scan (items st) (current st ++ [char])
                                       q qc bc))).
    { intros q qc bc. cbn [current]. apply Forall_app. split; [exact Hcur|].
      now constructor. }
    cbn [scan_items]. split_tests; try (apply IH; apply Hkeep).
    pose proof (Hpv _ (plain_strip _ Hcur)) as Hv.
    destruct (pv (strip (current st))) as [v| |]; cbn [bind].
    + apply IH. constructor.
    + contradiction.
    + split; [discriminate|]. intros st' F. discriminate.
Qed.

(** On a text without superscript digits [parse_value] raises nothing. *)
Lemma parse_value_fuel_plain :
  forall (fuel : nat) (constants : dict) (value_str : str),
    plain value_str ->
    parse_value_fuel fuel constants value_str <> ValueError.
Proof.
  induction fuel as [|fuel IH]; intros constants value_str H; [discriminate|].
  cbn [parse_value_fuel].
  set (vs := if endswith (strip value_str) ";"
             then strip (drop_last (strip value_str))
             else strip value_str).
  assert (Hvs : plain vs).
  { unfold vs. destruct (endswith (strip value_str) ";").
    - apply plain_strip, plain_removelast, plain_strip, H.
    - apply plain_strip, H. }
  destruct (is_empty (strip value_str)); [discriminate|].
  destruct (is_quoted vs); [discriminate|].
  destruct (isdigit vs) eqn:Hd; [now apply int_of_str_plain|].
  destruct (Re.matches float_pattern vs); [discriminate|].
  destruct (str_eqb (lower vs) "true"); [discriminate|].
  destruct (str_eqb (lower vs) "false"); [discriminate|].
  destruct (startswith vs "{" && endswith vs "}");
    [|destruct (dict_get constants vs); discriminate].
  destruct (is_empty (strip (inner vs))); [discriminate|].
  destruct (scan_items_plain (parse_value_fuel fuel constants)
              (fun t Ht => IH constants t Ht)
              (strip (inner vs)) scan_start) as [Hscan Hcur].
  { apply plain_strip, plain_inner, Hvs. }
  { constructor. }
  destruct (scan_items (parse_value_fuel fuel constants) (strip (inner vs))
              scan_start) as [st| |]; cbn [bind];
    [|contradiction|discriminate].
  destruct (is_empty (strip (current st))); [discriminate|].
  pose proof (IH constants (strip (current st))
                (plain_strip _ (Hcur st eq_refl))) as Hv.
  destruct (parse_value_fuel fuel constants (strip (current st)));
    cbn [bind]; [discriminate|contradiction|discriminate].
Qed.

Lemma parse_value_plain :
  forall (constants : dict) (value_str : str),
    plain value_str -> parse_value constants value_str <> ValueError.
Proof.
  intros constants value_str. apply parse_value_fuel_plain.
Qed.

Lemma parse_dict_loop_plain :
  forall (fuel : nat) (constants : dict) (lines : list str) (i depth : nat)
         (result : dict),
    Forall plain lines ->
    parse_dict_loop fuel constants lines i depth result <> ValueError.
Proof.
  induction fuel as [|fuel IH]; intros constants lines i depth result H;
    [discriminate|].
  cbn [parse_dict_loop].
  destruct (nth_error lines i) as [raw|] eqn:Hnth; [|discriminate].
  assert (Hraw : plain raw).
  { rewrite Forall_forall in H. eapply H, nth_error_In, Hnth. }
  assert (Hnested : forall key,
             (do (nested_dict, next_idx) <-
                 parse_dict_loop fuel constants lines (i + 1) (depth + 1) [];
              parse_dict_loop fuel constants lines next_idx depth
                (dict_set result key (VDict nested_dict))) <> ValueError).
  { intros key.
    pose proof (IH constants lines (i + 1) (depth + 1) [] H) as H1.
    destruct (parse_dict_loop fuel constants lines (i + 1) (depth + 1) [])
      as [[nd next]| |]; cbn [bind];
      [now apply IH|contradiction|discriminate]. }
  assert (Hsimple : forall key value_part,
             plain value_part ->
             (do v <- parse_value constants value_part;
              parse_dict_loop fuel constants lines (i + 1) depth
                (dict_set result key v)) <> ValueError).
  { intros key value_part Hp.
    pose proof (parse_value_plain constants value_part Hp) as Hv.
    destruct (parse_value constants value_part) as [v| |]; cbn [bind];
      [now apply IH|contradiction|discriminate]. }
  cbv zeta. split_tests;
    try (now apply IH); try apply Hnested;
    try (apply Hsimple; apply plain_strip, plain_after, plain_strip, Hraw).
  discriminate.
Qed.

Lemma parse_loop_plain :
  forall (fuel : nat) (constants : dict) (lines : list str) (i : nat)
         (data : dict),
    Forall plain lines ->
    parse_loop fuel constants lines i data <> ValueError.
Proof.
  induction fuel as [|fuel IH]; intros constants lines i data H;
    [discriminate|].
  cbn [parse_loop].
  destruct (nth_error lines i) as [raw|] eqn:Hnth; [|discriminate].
  assert (Hraw : plain raw).
  { rewrite Forall_forall in H. eapply H, nth_error_In, Hnth. }
  assert (Hnested : forall key,
             (do (nested_dict, next_idx) <-
                 parse_dict fuel constants lines (i + 1) 0;
              parse_loop fuel constants lines next_idx
                (dict_set data key (VDict nested_dict))) <> ValueError).
  { intros key. unfold parse_dict.
    pose proof (parse_dict_loop_plain fuel constants lines (i + 1) 0 [] H)
      as H1.
    destruct (parse_dict_loop fuel constants lines (i + 1) 0 [])
      as [[nd next]| |]; cbn [bind];
      [now apply IH|contradiction|discriminate]. }
  assert (Hsimple : forall key value_part,
             plain value_part ->
             (do v <- parse_value constants value_part;
              parse_loop fuel constants lines (i + 1) (dict_set data key v))
             <> ValueError).
  { intros key value_part Hp.
    pose proof (parse_value_plain constants value_part Hp) as Hv.
    destruct (parse_value constants value_part) as [v| |]; cbn [bind];
      [now apply IH|contradiction|discriminate]. }
  cbv zeta. split_tests;
    try (now apply IH); try apply Hnested;
    try (apply Hsimple; apply plain_after, plain_strip, Hraw).
Qed.

Lemma define_loop_plain :
  forall (found : list (list str)) (constants : dict),
    Forall (Forall plain) found ->
    define_loop found constants <> ValueError.
Proof.
  induction found as [|groups found IH]; intros constants H;
    cbn [define_loop]; [discriminate|].
  inversion H as [|? ? Hg Hf]; subst.
  assert (Hv : plain (strip (nth 1 groups []))).
  { apply plain_strip. destruct groups as [|g0 [|g1 gs]]; try constructor.
    inversion Hg as [|? ? _ Hg']; subst. now inversion Hg'. }
  pose proof (parse_value_plain constants _ Hv) as Hp.
  destruct (parse_value constants (strip (nth 1 groups []))); cbn [bind];
    [now apply IH|contradiction|discriminate].
Qed.

Lemma plain_firstn :
  forall (n : nat) (s : str), plain s -> plain (firstn n s).
Proof.
  induction n as [|n IH]; intros s H; [constructor|].
  destruct H as [|c s Hc Hs]; [constructor|].
  cbn [firstn]. constructor; [exact Hc|now apply IH].
Qed.

(** A match is made of characters of the text, in its groups and in the
    text it leaves. *)
Lemma rmatch_plain :
  forall (r : Re.regex) (s : str) (caps : list str)
         (k : str -> list str -> option Re.found) (res : Re.found),
    plain s -> Forall plain caps ->
    (forall s1 caps1 res1,
        plain s1 -> Forall plain caps1 -> k s1 caps1 = Some res1 ->
        Forall plain (fst res1) /\ plain (snd res1)) ->
    Re.rmatch r s caps k = Some res ->
    Forall plain (fst res) /\ plain (snd res).
Proof.
  induction r as [|c|p|r1 IH1 r2 IH2|r1 IH1|r1 IH1|r1 IH1|];
    intros s caps k res Hs Hcaps Hk; cbn [Re.rmatch].
  - now apply Hk.
  - destruct s as [|x s']; [discriminate|].
    destruct (Ascii.eqb x c); [|discriminate].
    apply Hk; [now inversion Hs|exact Hcaps].
  - destruct s as [|x s']; [discriminate|].
    destruct (p x); [|discriminate].
    apply Hk; [now inversion Hs|exact Hcaps].
  - apply IH1; [exact Hs|exact Hcaps|].
    intros s1 caps1 res1 H1 H2. now apply IH2.
  - revert res. generalize (List.length s) at 1. intros n.
    revert s caps Hs Hcaps.
    induction n as [|n IHn]; intros s caps Hs Hcaps res; [now apply Hk|].
    destruct (Re.rmatch r1 s caps _) as [m|] eqn:E.
    + intros F. injection F as <-. revert E. apply IH1; [exact Hs|exact Hcaps|].
      intros s1 caps1 res1 H1 H2.
      destruct (Nat.ltb (List.length s1) (List.length s)); [|discriminate].
      now apply IHn.
    + now apply Hk.
  - destruct (Re.rmatch r1 s caps k) as [m|] eqn:E.
    + intros F. injection F as <-. revert E. now apply IH1.
    + now apply Hk.
  - apply IH1; [exact Hs|exact Hcaps|].
    intros s1 caps1 res1 H1 H2. apply Hk; [exact H1|].
    apply Forall_app. split; [exact H2|]. constructor; [|constructor].
    now apply plain_firstn.
  - destruct s as [|c [|d s']]; try discriminate; [now apply Hk|].
    destruct (Ascii.eqb c newline); [now apply Hk|discriminate].
Qed.

Lemma scan_plain_pieces :
  forall (r : Re.regex) (s : str) (skip : nat),
    plain s ->
    Forall (fun p => match p with
                     | Re.Matched caps => Forall plain caps
                     | Re.Plain c => plain_char c = true
                     end) (Re.scan r s skip).
Proof.
  intros r s skip H. revert skip.
  induction H as [|c s Hc Hs IH]; intros skip; cbn [Re.scan]; [constructor|].
  destruct skip as [|n]; [|apply IH].
  destruct (Re.match_here r (c :: s)) as [[caps rest]|] eqn:E.
  - assert (Hcaps : Forall plain caps).
    { unfold Re.match_here in E.
      apply (rmatch_plain r (c :: s) [] _ (caps, rest)) in E.
      - apply E.
      - now constructor.
      - constructor.
      - intros s1 caps1 res1 H1 H2 F. injection F as <-. now split. }
    destruct (List.length (c :: s) - List.length rest);
      repeat (constructor; try assumption); apply IH.
  - constructor; [exact Hc|apply IH].
Qed.

Lemma finditer_plain_groups :
  forall (r : Re.regex) (s : str),
    plain s -> Forall (Forall plain) (Re.finditer r s).
Proof.
  intros r s H. unfold Re.finditer.
  pose proof (scan_plain_pieces r s 0 H) as Hp.
  induction Hp as [|[caps|c] ps Hx Hps IH]; cbn [flat_map app];
    [constructor|now constructor|exact IH].
Qed.

Lemma sub_empty_plain_text :
  forall (r : Re.regex) (s : str), plain s -> plain (Re.sub_empty r s).
Proof.
  intros r s H. unfold Re.sub_empty.
  pose proof (scan_plain_pieces r s 0 H) as Hp.
  induction Hp as [|[caps|c] ps Hx Hps IH]; cbn [flat_map app];
    [constructor|exact IH|now constructor].
Qed.

Lemma split_plain :
  forall (c : ascii) (s : str), plain s -> Forall plain (split c s).
Proof.
  intros c s H. induction H as [|x s Hx Hs IH]; simpl.
  - repeat constructor.
  - destruct (Ascii.eqb x c); [constructor; [constructor|exact IH]|].
    destruct (split c s) as [|w ws]; inversion IH; subst;
      repeat constructor; assumption.
Qed.

Lemma join_plain :
  forall (sep : str) (ls : list str),
    plain sep -> Forall plain ls -> plain (join sep ls).
Proof.
  intros sep ls Hsep H. induction H as [|l ls Hl Hls IH]; [constructor|].
  destruct ls as [|l' ls]; [exact Hl|].
  change (join sep (l :: l' :: ls)) with (l ++ sep ++ join sep (l' :: ls)).
  apply Forall_app. split; [exact Hl|]. apply Forall_app. now split.
Qed.

Lemma clean_text_plain :
  forall text : str, plain text -> plain (clean_text text).
Proof.
  intros text H. unfold clean_text. apply join_plain.
  - now constructor.
  - apply Forall_forall. intros l Hl. apply filter_In in Hl.
    destruct Hl as [Hl _]. apply in_map_iff in Hl.
    destruct Hl as (line & <- & Hline).
    pose proof (split_plain newline text H) as Hs.
    rewrite Forall_forall in Hs. specialize (Hs line Hline).
    unfold clean_line. apply rstrip_Forall.
    destruct (contains "#" line); [now apply before_Forall|exact Hs].
Qed.

(** X5: on a text of characters of code below 256 that holds none of the
    three superscript digits, which [str.isdigit] accepts and [int] does
    not, [parse] returns a table, when the text has at most 100 opening
    braces and at most 4000 characters.  The model has neither the
    recursion limit of the interpreter nor its limit on the digits of an
    integer, and its characters stop at code 255; the two bounds keep the
    text where the source reaches neither limit: the calls nest no more
    deeply than the opening braces, and no integer has more digits than the
    text has characters. *)
Theorem parse_returns_without_superscripts :
  forall text : str,
    plain text ->
    braces text <= 100 ->
    List.length text <= 4000 ->
    exists data : dict, parse text = Ok data.
Proof.
  intros text H _ _.
  destruct (parse_total text) as [Hok|Herr]; [exact Hok|].
  exfalso. revert Herr. unfold parse, parse_constants, parse_data, data_lines.
  pose proof (clean_text_plain text H) as Hc.
  pose proof (define_loop_plain _ []
                (finditer_plain_groups define_pattern _ Hc)) as Hd.
  destruct (define_loop _ []) as [constants| |]; cbn [bind];
    [|contradiction|discriminate].
  pose proof (parse_loop_plain
                (S (List.length
                      (split newline
                         (Re.sub_empty define_form (clean_text text)))))
                constants _ 0 []
                (split_plain newline _ (sub_empty_plain_text define_form _ Hc)))
    as Hl.
  destruct (parse_loop _ constants _ 0 []) as [data| |]; cbn [bind];
    [discriminate|contradiction|discriminate].
Qed.

Lemma parse_returns_without_superscripts_witness :
  plain Examples.server_text
  /\ braces Examples.server_text <= 100
  /\ List.length Examples.server_text <= 4000
  /\ exists data : dict, parse Examples.server_text = Ok data.
Proof.
  assert (H : plain Examples.server_text).
  { apply Forall_forall. apply forallb_forall. vm_compute. reflexivity. }
  assert (Hb : braces Examples.server_text <= 100).
  { apply Nat.leb_le. vm_compute. reflexivity. }
  assert (Hl : List.length Examples.server_text <= 4000).
  { apply Nat.leb_le. vm_compute. reflexivity. }
  split; [exact H|]. split; [exact Hb|]. split; [exact Hl|].
  apply (parse_returns_without_superscripts Examples.server_text H Hb Hl).
Defined.

End ErrorFacts.

Module BlockFacts.

Import PyStr ConfigParser Coverage DictFacts Totality.

Lemma block_end_later :
  forall (lines : list str) (i i' j : nat),
    i <= i' -> block_end lines i' j -> block_end lines i j.
Proof.
  intros lines i i' j Hi ((H1 & H2) & H3). split; [lia|].
  destruct H3 as [H3|(raw & H4 & H5)]; [now left|].
  right. exists raw. split; [lia|exact H5].
Qed.

Lemma parse_dict_loop_end :
  forall (fuel : nat) (constants : dict) (lines : list str) (i depth : nat)
         (result r : dict) (j : nat),
    i <= List.length lines ->
    parse_dict_loop fuel constants lines i depth result = Ok (r, j) ->
    block_end lines i j.
Proof.
  induction fuel as [|fuel IH]; intros constants lines i depth result r j Hi;
    [discriminate|].
  cbn [parse_dict_loop].
  destruct (nth_error lines i) as [raw|] eqn:Hnth.
  2:{ intros E. injection E as _ <-.
      apply nth_error_None in Hnth. split; [lia|left; lia]. }
  assert (Hlt : i < List.length lines).
  { apply nth_error_Some. congruence. }
  assert (Hnext : forall d res,
             parse_dict_loop fuel constants lines (i + 1) d res = Ok (r, j) ->
             block_end lines i j).
  { intros d res E. apply (block_end_later lines i (i + 1)); [lia|].
    eapply IH; [|exact E]. lia. }
  assert (Hnested : forall key,
             (do (nested_dict, next_idx) <-
                 parse_dict_loop fuel constants lines (i + 1) (depth + 1) [];
              parse_dict_loop fuel constants lines next_idx depth
                (dict_set result key (VDict nested_dict))) = Ok (r, j) ->
             block_end lines i j).
  { intros key.
    destruct (parse_dict_loop fuel constants lines (i + 1) (depth + 1) [])
      as [[nd next]| |] eqn:E; cbn [bind]; try discriminate.
    intros F.
    assert (Hin : block_end lines (i + 1) next)
      by (eapply IH; [|exact E]; lia).
    destruct Hin as ((H1 & H2) & _).
    apply (block_end_later lines i next); [lia|].
    apply (IH _ _ _ _ _ _ _ H2 F). }
  assert (Hsimple : forall key value_part,
             (do v <- parse_value constants value_part;
              parse_dict_loop fuel constants lines (i + 1) depth
                (dict_set result key v)) = Ok (r, j) ->
             block_end lines i j).
  { intros key value_part.
    destruct (parse_value constants value_part) as [v| |]; cbn [bind];
      try discriminate.
    apply Hnext. }
  cbv zeta.
  destruct (is_empty (strip raw)); [apply Hnext|].
  destruct (str_eqb (strip raw) "}") eqn:Eb.
  - intros E. injection E as _ <-. apply str_eqb_eq in Eb.
    split; [lia|]. right. exists raw.
    replace (i + 1 - 1) with i by lia. repeat split; [lia|exact Hnth|exact Eb].
  - split_tests; try apply Hnext; try apply Hnested; apply Hsimple.
Qed.

(** X6: whenever [parse_dict] returns, the index it returns is between the
    index it started at and the number of lines, and it is either the
    number of lines or the index after a line made of a closing brace.  So
    when no line from the start on is a closing brace, the index it returns
    is the number of lines: the block has taken every line to the end of
    the text. *)
Theorem parse_dict_ends_at_brace_or_at_end :
  forall (fuel : nat) (constants : dict) (lines : list str)
         (start_idx depth : nat) (result : dict) (next_idx : nat),
    start_idx <= List.length lines ->
    parse_dict fuel constants lines start_idx depth = Ok (result, next_idx) ->
    block_end lines start_idx next_idx
    /\ ((forall k raw, start_idx <= k -> nth_error lines k = Some raw ->
                       strip raw <> "}") ->
        next_idx = List.length lines).
Proof.
  intros fuel constants lines start_idx depth result next_idx Hi E.
  pose proof (parse_dict_loop_end _ _ _ _ _ _ _ _ Hi E) as H.
  split; [exact H|].
  intros Hopen. destruct H as (_ & [H|(raw & H1 & H2 & H3)]); [exact H|].
  exfalso. apply (Hopen (next_idx - 1) raw); [lia|exact H2|exact H3].
Qed.

Lemma parse_dict_ends_at_brace_or_at_end_witness :
  (1 <= List.length ["a: {" : str; "b: 1" : str]
   /\ parse_dict 3 [] ["a: {" : str; "b: 1" : str] 1 0
      = Ok ([("b" : str, VInt 1)], 2))
  /\ block_end ["a: {" : str; "b: 1" : str] 1 2.
Proof.
  assert (E : parse_dict 3 [] ["a: {" : str; "b: 1" : str] 1 0
              = Ok ([("b" : str, VInt 1)], 2)) by reflexivity.
  split; [split; [simpl; lia|exact E]|].
  apply (proj1 (parse_dict_ends_at_brace_or_at_end
                  3 [] ["a: {" : str; "b: 1" : str] 1 0 _ 2
                  (le_S 1 1 (le_n 1)) E)).
Defined.

End BlockFacts.

Module FuelFacts.

Import PyStr ConfigParser Spec Coverage Totality.

Lemma parse_value_fuel_token :
  forall (fuel : nat) (constants : dict) (value_str : str),
    parse_value_fuel (S fuel) constants value_str
    = if is_empty (strip value_str) then Ok (VStr [])
      else classify_token fuel constants (token value_str).
Proof.
  reflexivity.
Qed.

Lemma scan_items_length :
  forall (pv : str -> outcome value) (content : str) (st st' : scan_state),
    scan_items pv content st = Ok st' ->
    List.length (current st') <= List.length (current st) + List.length content.
Proof.
  intros pv. induction content as [|char rest IH]; intros st st'.
  - intros E. injection E as <-. simpl. lia.
  - cbn [scan_items].
    assert (Hkeep : forall q qc bc,
               scan_items pv rest
                 (mk_scan (items st) (current st ++ [char]) q qc bc) = Ok st' ->
               List.length (current st')
               <= List.length (current st) + List.length (char :: rest)).
    { intros q qc bc E. apply IH in E. cbn [current] in E.
      rewrite length_app in E. simpl in *. lia. }
    split_tests; try apply Hkeep.
    destruct (pv (strip (current st))); cbn [bind]; try discriminate.
    intros E. apply IH in E. simpl in *. lia.
Qed.

Lemma scan_items_ext :
  forall (pv1 pv2 : str -> outcome value) (m : nat),
    (forall t, List.length t <= m -> pv1 t = pv2 t) ->
    forall (content : str) (st : scan_state),
      List.length (current st) + List.length content <= m ->
      scan_items pv1 content st = scan_items pv2 content st.
Proof.
  intros pv1 pv2 m H. induction content as [|char rest IH]; intros st Hlen;
    [reflexivity|].
  assert (Hkeep : forall q qc bc,
             List.length
               (current (mk_scan (items st) (current st ++ [char]) q qc bc))
             + List.length rest <= m).
  { intros q qc bc. cbn [current]. rewrite length_app. simpl in *. lia. }
  cbn [scan_items]. split_tests; try (apply IH; apply Hkeep).
  rewrite H by (pose proof (strip_length (current st)); lia).
  destruct (pv2 (strip (current st))); cbn [bind]; try reflexivity.
  apply IH. simpl in *. lia.
Qed.

Lemma classify_token_irrelevant :
  forall (f1 f2 : nat) (constants : dict) (tok : str),
    List.length tok <= f1 -> List.length tok <= f2 ->
    (forall t, List.length t < f1 -> List.length t < f2 ->
               parse_value_fuel f1 constants t
               = parse_value_fuel f2 constants t) ->
    classify_token f1 constants tok = classify_token f2 constants tok.
Proof.
  intros f1 f2 constants tok H1 H2 IH. unfold classify_token.
  destruct (is_quoted tok); [reflexivity|].
  destruct (isdigit tok); [reflexivity|].
  destruct (Re.matches float_pattern tok); [reflexivity|].
  destruct (str_eqb (lower tok) "true"); [reflexivity|].
  destruct (str_eqb (lower tok) "false"); [reflexivity|].
  destruct (startswith tok "{" && endswith tok "}") eqn:Hb; [|reflexivity].
  assert (Hne : 0 < List.length tok)
    by (destruct tok; [discriminate|simpl; lia]).
  cbv zeta. set (content := strip (inner tok)).
  assert (Hc : List.length content + 2 <= List.length tok).
  { unfold content. pose proof (strip_length (inner tok)).
    pose proof (inner_length tok).
    destruct tok as [|a [|b tok']]; [discriminate| |simpl in *; lia].
    simpl in Hb. rewrite andb_true_iff in Hb. destruct Hb as [Ha Hb].
    apply Ascii.eqb_eq in Ha, Hb. congruence. }
  destruct (is_empty content); [reflexivity|].
  assert (Hpv : forall t, List.length t <= List.length content ->
                          parse_value_fuel f1 constants t
                          = parse_value_fuel f2 constants t).
  { intros t Ht. apply IH; lia. }
  rewrite (scan_items_ext _ _ _ Hpv content scan_start) by (simpl; lia).
  destruct (scan_items (parse_value_fuel f2 constants) content scan_start)
    as [st| |] eqn:E; cbn [bind]; try reflexivity.
  destruct (is_empty (strip (current st))); [reflexivity|].
  apply scan_items_length in E. simpl in E.
  rewrite Hpv by (pose proof (strip_length (current st)); lia).
  reflexivity.
Qed.

Lemma token_length :
  forall s : str, List.length (token s) <= List.length s.
Proof.
  intros s. unfold token. pose proof (strip_length s).
  destruct (endswith (strip s) ";"); [|lia].
  pose proof (strip_length (drop_last (strip s))).
  unfold drop_last in *. rewrite removelast_length in *. lia.
Qed.

(** The result of [parse_value] does not depend on the budget, once the
    budget exceeds the length of the text. *)
Lemma parse_value_fuel_irrelevant :
  forall (f1 f2 : nat) (constants : dict) (s : str),
    List.length s < f1 -> List.length s < f2 ->
    parse_value_fuel f1 constants s = parse_value_fuel f2 constants s.
Proof.
  induction f1 as [|f1 IH]; intros f2 constants s H1 H2; [lia|].
  destruct f2 as [|f2]; [lia|].
  rewrite !parse_value_fuel_token.
  destruct (is_empty (strip s)); [reflexivity|].
  pose proof (token_length s).
  apply classify_token_irrelevant; try lia.
  intros t Ht1 Ht2. now apply IH.
Qed.

Lemma parse_value_token_only :
  forall (constants : dict) (s : str) (fuel : nat),
    List.length (token s) <= fuel ->
    parse_value constants s
    = if is_empty (strip s) then Ok (VStr [])
      else classify_token fuel constants (token s).
Proof.
  intros constants s fuel H. unfold parse_value.
  rewrite parse_value_fuel_token.
  destruct (is_empty (strip s)); [reflexivity|].
  pose proof (token_length s).
  apply classify_token_irrelevant; try lia.
  intros t Ht1 Ht2. now apply parse_value_fuel_irrelevant.
Qed.

End FuelFacts.

Module TokenFacts.

Import PyStr ConfigParser TOMLConverter Spec Coverage StrFacts CleanFacts.
Import FuelFacts.

Lemma parse_value_same_token :
  forall (constants : dict) (s1 s2 : str),
    is_empty (strip s1) = is_empty (strip s2) ->
    token s1 = token s2 ->
    parse_value constants s1 = parse_value constants s2.
Proof.
  intros constants s1 s2 He Ht.
  rewrite (parse_value_token_only constants s1 (List.length (token s1)))
    by lia.
  rewrite (parse_value_token_only constants s2 (List.length (token s1)))
    by (rewrite Ht; lia).
  now rewrite He, Ht.
Qed.

Lemma parse_value_same_strip :
  forall (constants : dict) (s1 s2 : str),
    strip s1 = strip s2 ->
    parse_value constants s1 = parse_value constants s2.
Proof.
  intros constants s1 s2 H. apply parse_value_same_token.
  - now rewrite H.
  - unfold token. now rewrite H.
Qed.

Lemma strip_leading_space :
  forall (a : ascii) (s : str), isspace a = true -> strip (a :: s) = strip s.
Proof.
  intros a s Ha. unfold strip. cbn [rstrip].
  destruct (rstrip s) as [|b r]; rewrite ?Ha; cbn [lstrip]; now rewrite ?Ha.
Qed.

Lemma rstrip_trailing_spaces :
  forall x ws : str,
    Forall (fun c => isspace c = true) ws -> rstrip (x ++ ws) = rstrip x.
Proof.
  intros x ws. revert x. induction ws as [|c ws IH] using rev_ind; intros x H.
  - now rewrite app_nil_r.
  - apply Forall_app in H. destruct H as [Hws Hc]. inversion Hc; subst.
    rewrite app_assoc, rstrip_space_last by assumption. now apply IH.
Qed.

Lemma lstrip_cases :
  forall s : str,
    lstrip s = [] \/ exists c r, lstrip s = c :: r /\ isspace c = false.
Proof.
  induction s as [|a s IH]; simpl; [now left|].
  destruct (isspace a) eqn:Ha; [exact IH|]. right. now exists a, s.
Qed.

Lemma lstrip_idempotent : forall s : str, lstrip (lstrip s) = lstrip s.
Proof.
  intros s. destruct (lstrip_cases s) as [E|(c & r & E & Hc)]; rewrite E.
  - reflexivity.
  - simpl. now rewrite Hc.
Qed.

Lemma lstrip_rstrip_commute :
  forall s : str, lstrip (rstrip s) = rstrip (lstrip s).
Proof.
  induction s as [|a s IH]; [reflexivity|].
  cbn [lstrip]. destruct (isspace a) eqn:Ha.
  - rewrite <- IH. cbn [rstrip].
    destruct (rstrip s) as [|b r]; rewrite ?Ha; cbn [lstrip];
      now rewrite ?Ha.
  - cbn [rstrip]. destruct (rstrip s) as [|b r]; rewrite ?Ha; cbn [lstrip];
      now rewrite Ha.
Qed.

Lemma lstrip_app :
  forall s y : str, lstrip s <> [] -> lstrip (s ++ y) = lstrip s ++ y.
Proof.
  induction s as [|a s IH]; intros y H; [contradiction|].
  simpl in *. destruct (isspace a); [now apply IH|reflexivity].
Qed.

Lemma strip_idempotent : forall s : str, strip (strip s) = strip s.
Proof.
  intros s. unfold strip.
  rewrite (lstrip_rstrip_commute (lstrip (rstrip s))), lstrip_idempotent.
  rewrite <- lstrip_rstrip_commute, rstrip_idempotent. reflexivity.
Qed.

(** The text of a value, white space, a semicolon and white space, strips
    to the value and the semicolon. *)
Lemma token_with_semicolon :
  forall s ws1 ws2 : str,
    Forall (fun c => isspace c = true) ws1 ->
    Forall (fun c => isspace c = true) ws2 ->
    strip s <> [] ->
    strip (s ++ ws1 ++ ";"%char :: ws2) = lstrip s ++ ws1 ++ [";"%char]
    /\ token (s ++ ws1 ++ ";"%char :: ws2) = strip s.
Proof.
  intros s ws1 ws2 H1 H2 Hne.
  assert (Hl : lstrip s <> []).
  { intros E. apply Hne. unfold strip.
    now rewrite lstrip_rstrip_commute, E. }
  assert (E : strip (s ++ ws1 ++ ";"%char :: ws2)
              = lstrip s ++ ws1 ++ [";"%char]).
  { unfold strip.
    replace (s ++ ws1 ++ ";"%char :: ws2)
      with ((s ++ ws1 ++ [";"%char]) ++ ws2)
      by (rewrite <- !app_assoc; reflexivity).
    rewrite (rstrip_trailing_spaces _ ws2 H2).
    replace (s ++ ws1 ++ [";"%char]) with ((s ++ ws1) ++ [";"%char])
      by (rewrite <- app_assoc; reflexivity).
    rewrite rstrip_last by reflexivity.
    rewrite <- app_assoc. now apply lstrip_app. }
  split; [exact E|].
  unfold token. rewrite E.
  replace (lstrip s ++ ws1 ++ [";"%char])
    with ((lstrip s ++ ws1) ++ [";"%char])
    by (rewrite <- app_assoc; reflexivity).
  rewrite endswith_last, Ascii.eqb_refl.
  unfold drop_last. rewrite removelast_last.
  unfold strip. rewrite (rstrip_trailing_spaces _ ws1 H1).
  rewrite <- lstrip_rstrip_commute, lstrip_idempotent. reflexivity.
Qed.

(** X7: one semicolon after a value, with any white space before and after
    it, does not change what [parse_value] returns. *)
Theorem parse_value_ignores_trailing_semicolon :
  forall (constants : dict) (s ws1 ws2 : str),
    Forall (fun c => isspace c = true) ws1 ->
    Forall (fun c => isspace c = true) ws2 ->
    strip s <> [] ->
    endswith (strip s) ";" = false ->
    parse_value constants (s ++ ws1 ++ ";"%char :: ws2)
    = parse_value constants s.
Proof.
  intros constants s ws1 ws2 H1 H2 Hne Hend.
  destruct (token_with_semicolon s ws1 ws2 H1 H2 Hne) as [Es Et].
  apply parse_value_same_token.
  - rewrite Es. destruct (strip s) eqn:E; [contradiction|].
    destruct (lstrip s); [destruct ws1|]; reflexivity.
  - rewrite Et. unfold token. now rewrite Hend.
Qed.

Lemma parse_value_ignores_trailing_semicolon_witness :
  (strip " 8080" <> [] /\ endswith (strip " 8080") ";" = false)
  /\ parse_value [] (" 8080" ++ " " ++ ";"%char :: " ")
     = parse_value [] " 8080".
Proof.
  split; [split; [discriminate|reflexivity]|].
  apply (parse_value_ignores_trailing_semicolon [] " 8080" " " " ").
  - repeat constructor.
  - repeat constructor.
  - discriminate.
  - reflexivity.
Defined.

Section WithFloat.

Variable float_repr : str -> str.

(** X8: what the serializer writes for a boolean, for an integer that is
    not negative and for a string without a character that it escapes or
    that the parser gives a meaning to, [parse_value] reads back as the
    same value, whatever the constants. *)
Theorem parse_value_reads_rendered_scalar :
  forall (constants : dict) (v : value),
    value_ok v = true ->
    parse_value constants (render_value float_repr v) = Ok v.
Proof.
  intros constants v H.
  destruct (RenderFacts.render_value_ok float_repr constants v H) as [E _].
  rewrite <- E. apply parse_value_same_strip.
  symmetry. now apply strip_leading_space.
Qed.

End WithFloat.

Lemma parse_value_reads_rendered_scalar_witness :
  value_ok (VInt 8080) = true
  /\ parse_value [] (render_value Examples.literal_repr (VInt 8080))
     = Ok (VInt 8080).
Proof.
  split; [reflexivity|].
  apply (parse_value_reads_rendered_scalar Examples.literal_repr []).
  reflexivity.
Defined.

End TokenFacts.

Module BlankFacts.

Import PyStr ConfigParser TOMLConverter.

Lemma clean_text_blank :
  forall text : str,
    Forall (fun line => clean_line line = []) (split newline text) ->
    clean_text text = [].
Proof.
  intros text H. unfold clean_text.
  induction H as [|l ls Hl Hls IH]; [reflexivity|].
  cbn [map filter]. rewrite Hl. exact IH.
Qed.

(** X9: a text whose lines are all empty, white space or comments converts
    to the empty text: [parse] returns the empty table and [to_toml] the
    empty string, and no error is raised. *)
Theorem convert_blank_text :
  forall (float_repr : str -> str) (text : str),
    Forall (fun line => clean_line line = []) (split newline text) ->
    parse text = Ok [] /\ convert float_repr text = Ok [].
Proof.
  intros float_repr text H.
  assert (E : parse text = Ok []).
  { unfold parse, parse_constants, parse_data, data_lines.
    rewrite (clean_text_blank text H). reflexivity. }
  split; [exact E|]. unfold convert. rewrite E. reflexivity.
Qed.

Lemma convert_blank_text_witness :
  Forall (fun line => clean_line line = [])
         (split newline ("# a comment" ++ [newline] ++ "   "))
  /\ convert Examples.literal_repr ("# a comment" ++ [newline] ++ "   ")
     = Ok [].
Proof.
  assert (H : Forall (fun line => clean_line line = [])
                     (split newline ("# a comment" ++ [newline] ++ "   ")))
    by (repeat constructor).
  split; [exact H|].
  apply (proj2 (convert_blank_text Examples.literal_repr _ H)).
Defined.

End BlankFacts.

Module ArrayFacts.

Import PyStr ConfigParser Spec Coverage StrFacts Totality FuelFacts TokenFacts.
Import RenderFacts.

Lemma special_facts :
  forall c : ascii,
    special c = false ->
    Ascii.eqb c squote = false /\ Ascii.eqb c dquote = false
    /\ Ascii.eqb c "{" = false /\ Ascii.eqb c "}" = false
    /\ Ascii.eqb c "," = false.
Proof.
  intros c. by_character c.
Qed.

Lemma scan_simple :
  forall (pv : str -> outcome value) (t rest : str) (its : list value)
         (cur : str),
    simple_text t = true ->
    scan_items pv (t ++ rest) (mk_scan its cur false None 0)
    = scan_items pv rest (mk_scan its (cur ++ t) false None 0).
Proof.
  intros pv t rest its. induction t as [|c t IH]; intros cur H.
  - now rewrite app_nil_r.
  - simpl in H. apply andb_true_iff in H. destruct H as [Hc Ht].
    apply negb_true_iff in Hc.
    destruct (special_facts c Hc) as (H1 & H2 & H3 & H4 & H5).
    cbn [app scan_items in_quotes quote_char brace_count items current
         is_quote_char].
    rewrite H1, H2, H3, H4, H5. cbn [orb andb negb].
    rewrite (IH _ Ht). now rewrite <- app_assoc.
Qed.

Lemma scan_quoted_body :
  forall (pv : str -> outcome value) (q : ascii) (body rest : str)
         (its : list value) (cur : str),
    contains q body = false ->
    scan_items pv (body ++ rest) (mk_scan its cur true (Some q) 0)
    = scan_items pv rest (mk_scan its (cur ++ body) true (Some q) 0).
Proof.
  intros pv q body rest its. induction body as [|c body IH]; intros cur H.
  - now rewrite app_nil_r.
  - simpl in H. apply orb_false_iff in H. destruct H as [Hc Hb].
    cbn [app scan_items in_quotes quote_char brace_count items current
         is_quote_char].
    rewrite Ascii.eqb_sym in Hc. rewrite Hc. cbn [orb andb negb].
    rewrite !andb_false_r. cbn [orb andb negb].
    rewrite (IH _ Hb). now rewrite <- app_assoc.
Qed.

Lemma scan_item :
  forall (pv : str -> outcome value) (t rest : str) (its : list value)
         (cur : str),
    item_ok t ->
    scan_items pv (t ++ rest) (mk_scan its cur false None 0)
    = scan_items pv rest (mk_scan its (cur ++ t) false None 0).
Proof.
  intros pv t rest its cur
    [H|(pre & q & body & post & -> & Hpre & Hpost & Hq & Hb)].
  - now apply scan_simple.
  - rewrite <- !app_assoc. rewrite scan_simple by exact Hpre.
    cbn [app scan_items in_quotes quote_char brace_count items current
         is_quote_char].
    assert (E1 : (Ascii.eqb q squote || Ascii.eqb q dquote) = true).
    { destruct Hq as [-> | ->]; reflexivity. }
    rewrite E1. cbn [andb negb].
    rewrite <- app_assoc. rewrite scan_quoted_body by exact Hb.
    cbn [app scan_items in_quotes quote_char brace_count items current
         is_quote_char].
    rewrite E1, Ascii.eqb_refl. cbn [andb negb].
    rewrite scan_simple by exact Hpost.
    f_equal. f_equal. rewrite <- !app_assoc. reflexivity.
Qed.

(** The loop over the items of an array, joined by commas: every item but
    the last is parsed and appended, the last is left in [current]. *)
Lemma scan_join :
  forall (pv : str -> outcome value) (init : list str) (last : str)
         (vs its : list value),
    Forall item_ok (init ++ [last]) ->
    Forall2 (fun t v => pv (strip t) = Ok v) init vs ->
    scan_items pv (join "," (init ++ [last])) (mk_scan its [] false None 0)
    = Ok (mk_scan (its ++ vs) last false None 0).
Proof.
  intros pv. induction init as [|t init IH]; intros last vs its Hok Hvs.
  - inversion Hvs; subst. inversion Hok; subst.
    cbn [app join]. rewrite <- (app_nil_r last) at 1.
    rewrite scan_item by assumption. now rewrite app_nil_r.
  - inversion Hvs as [|? v ? vs' Hv Hvs']; subst.
    inversion Hok as [|? ? Ht Hok']; subst.
    destruct (app_last_cons _ init last) as (t' & ts' & E).
    cbn [app]. rewrite E.
    change (join "," (t :: t' :: ts'))
      with (t ++ ","%char :: join "," (t' :: ts')).
    rewrite scan_item by exact Ht.
    cbn [app scan_items in_quotes quote_char brace_count items current
         is_quote_char].
    cbn [Ascii.eqb Bool.eqb orb andb negb Z.eqb].
    rewrite Hv. cbn [bind]. rewrite <- E.
    rewrite (IH last vs' (its ++ [v]) Hok' Hvs').
    now rewrite <- app_assoc.
Qed.

Lemma Forall2_weaken :
  forall (A B : Type) (R R' : A -> B -> Prop) (l : list A) (l' : list B),
    (forall a b, In a l -> R a b -> R' a b) ->
    Forall2 R l l' -> Forall2 R' l l'.
Proof.
  intros A B R R' l l' H F. induction F as [|a b l l' Hab F IH];
    constructor.
  - apply H; [now left|exact Hab].
  - apply IH. intros x y Hx. apply H. now right.
Qed.

Lemma join_item_length :
  forall (sep : str) (ts : list str) (t : str),
    In t ts -> List.length t <= List.length (join sep ts).
Proof.
  intros sep. induction ts as [|t0 ts IH]; intros t Hin; [contradiction|].
  destruct ts as [|t1 ts].
  - destruct Hin as [->|[]]. simpl. lia.
  - change (join sep (t0 :: t1 :: ts)) with (t0 ++ sep ++ join sep (t1 :: ts)).
    rewrite !length_app. destruct Hin as [->|Hin]; [lia|].
    specialize (IH t Hin). lia.
Qed.

Lemma parse_value_fuel_of_value :
  forall (fuel : nat) (constants : dict) (t : str) (v : value),
    List.length t < fuel ->
    parse_value constants t = Ok v ->
    parse_value_fuel fuel constants (strip t) = Ok v.
Proof.
  intros fuel constants t v Hlen H.
  rewrite (parse_value_same_strip constants t (strip t)) in H
    by (symmetry; apply strip_idempotent).
  rewrite <- H. unfold parse_value.
  pose proof (strip_length t).
  apply parse_value_fuel_irrelevant; lia.
Qed.

(** The tests of [parse_value] on a text between braces. *)
Lemma classify_braced :
  forall (fuel : nat) (constants : dict) (body : str),
    strip body = body -> body <> [] ->
    classify_token fuel constants ("{"%char :: body ++ ["}"%char])
    = (do st <- scan_items (parse_value_fuel fuel constants) body scan_start;
       if is_empty (strip (current st)) then Ok (VList (items st))
       else
         do v <- parse_value_fuel fuel constants (strip (current st));
         Ok (VList (items st ++ [v]))).
Proof.
  intros fuel constants body Hs Hne. unfold classify_token, is_quoted.
  rewrite !endswith_cons_last.
  cbn [startswith isdigit forallb lower map str_eqb list_ascii_of_string].
  change (isdigit_char "{") with false.
  change (Re.matches float_pattern ("{"%char :: body ++ ["}"%char]))
    with false.
  cbn [Ascii.eqb Bool.eqb andb orb lower_char].
  change (Ascii.eqb (lower_char "{") "t") with false.
  change (Ascii.eqb (lower_char "{") "f") with false.
  cbn [andb]. unfold inner. cbn [tl]. rewrite removelast_last, Hs.
  destruct body; [contradiction|reflexivity].
Qed.

(** X10: an array written as items between braces, with a comma between
    two items, is parsed item by item: when each item is free of commas,
    quotes and braces, or holds one quoted part, the array is the list of
    what [parse_value] returns for the items.  A comma or a brace inside a
    quoted part does not split the item. *)
Theorem parse_value_array_of_items :
  forall (constants : dict) (ts : list str) (vs : list value),
    Forall item_ok ts ->
    Forall2 (fun t v => parse_value constants t = Ok v) ts vs ->
    strip (last ts []) <> [] ->
    strip (join "," ts) = join "," ts ->
    parse_value constants ("{"%char :: join "," ts ++ ["}"%char])
    = Ok (VList vs).
Proof.
  intros constants ts vs Hok Hvs Hlast Hstrip.
  assert (Hne : ts <> []) by (intros ->; now apply Hlast).
  destruct (exists_last Hne) as (init & l & ->).
  rewrite last_last in Hlast.
  apply Forall2_app_inv_l in Hvs.
  destruct Hvs as (vs1 & vs2 & Hv1 & Hv2 & ->).
  inversion Hv2 as [|? v ? ? Hv Hnil]; subst. inversion Hnil; subst.
  set (body := join "," (init ++ [l])) in *.
  set (s := "{"%char :: body ++ ["}"%char]).
  assert (Hl : List.length l <= List.length body).
  { apply join_item_length, in_or_app. right. now left. }
  assert (Hbody : body <> []).
  { intros E. rewrite E in Hl. destruct l; [now apply Hlast|simpl in Hl; lia]. }
  assert (Es : strip s = s).
  { unfold strip, s.
    change ("{"%char :: body ++ ["}"%char])
      with (("{"%char :: body) ++ ["}"%char]).
    now rewrite rstrip_last. }
  assert (Et : token s = s).
  { unfold token. rewrite Es. unfold s. now rewrite endswith_cons_last. }
  rewrite (parse_value_token_only constants s (List.length s))
    by (rewrite Et; lia).
  rewrite Es, Et. change (is_empty s) with false. cbv iota.
  unfold s. rewrite (classify_braced _ _ body Hstrip Hbody). fold s.
  assert (Hlen : forall t, In t (init ++ [l]) -> List.length t < List.length s).
  { intros t Hin. apply (join_item_length ",") in Hin. fold body in Hin.
    unfold s. simpl. rewrite length_app. simpl. lia. }
  unfold body, scan_start.
  rewrite (scan_join _ init l vs1 [] Hok).
  - cbn [bind current items app].
    destruct (is_empty (strip l)) eqn:E.
    + destruct (strip l); [now exfalso; apply Hlast|discriminate].
    + rewrite (parse_value_fuel_of_value _ _ l v); [reflexivity| |exact Hv].
      apply Hlen, in_or_app. right. now left.
  - eapply Forall2_weaken; [|exact Hv1]. intros t w Hin Hw.
    apply parse_value_fuel_of_value; [|exact Hw].
    apply Hlen, in_or_app. now left.
Qed.

Lemma array_items_ok : Forall item_ok array_items.
Proof.
  constructor; [now left|].
  constructor; [|constructor; [now left|constructor]].
  right. exists (" " : str), squote, ("a,b" : str), [].
  repeat split. now left.
Defined.

Lemma parse_value_array_of_items_witness :
  Forall item_ok array_items
  /\ parse_value [] ("{"%char :: join "," array_items ++ ["}"%char])
     = Ok (VList array_values).
Proof.
  split; [exact array_items_ok|].
  apply (parse_value_array_of_items [] array_items array_values
           array_items_ok).
  - repeat constructor.
  - discriminate.
  - reflexivity.
Defined.

End ArrayFacts.

Module NestingFacts.

Import PyStr ConfigParser Coverage StrFacts ReparseFacts.

Lemma nth_error_opening :
  forall n i : nat,
    nth_error (repeat opening n) i = if Nat.ltb i n then Some opening else None.
Proof.
  induction n as [|n IH]; intros [|i]; try reflexivity.
  cbn [repeat nth_error]. rewrite IH. reflexivity.
Qed.

(** [parse_dict] on lines that each open a block: it goes one call deeper
    per line and returns at the end of the lines. *)
Lemma parse_dict_loop_openings :
  forall (k n i fuel depth : nat) (constants : dict),
    i + k = n -> k < fuel ->
    parse_dict_loop fuel constants (repeat opening n) i depth []
    = Ok (nest k, n).
Proof.
  induction k as [|k IH]; intros n i fuel depth constants Hn Hfuel;
    (destruct fuel as [|fuel]; [lia|]); cbn [parse_dict_loop];
    rewrite nth_error_opening.
  - replace (Nat.ltb i n) with false by (symmetry; apply Nat.ltb_ge; lia).
    f_equal. f_equal. lia.
  - replace (Nat.ltb i n) with true by (symmetry; apply Nat.ltb_lt; lia).
    cbv zeta. change (strip opening) with opening.
    change (is_empty opening) with false.
    change (str_eqb opening "}") with false.
    change (contains ":" opening) with true.
    change (endswith opening "{") with true.
    change (split_key ":" opening) with ("a" : str). cbv iota.
    rewrite (IH n (i + 1) fuel (depth + 1) constants) by lia.
    cbn [bind]. destruct fuel as [|fuel]; [lia|].
    cbn [parse_dict_loop]. rewrite nth_error_opening.
    replace (Nat.ltb n n) with false by (symmetry; apply Nat.ltb_ge; lia).
    reflexivity.
Qed.

Lemma opening_lines :
  forall n : nat,
    Forall (fun l => contains newline l = false /\ contains "#" l = false
                     /\ rstrip l = l /\ is_empty l = false)
           (repeat opening n).
Proof.
  intros n. apply Forall_forall. intros l Hl. apply repeat_spec in Hl.
  subst l. repeat split.
Qed.

Lemma parse_loop_opening :
  forall (fuel : nat) (constants : dict) (lines : list str) (i : nat)
         (data : dict),
    nth_error lines i = Some opening ->
    parse_loop (S fuel) constants lines i data
    = (do (nested_dict, next_idx) <-
          parse_dict fuel constants lines (i + 1) 0;
       parse_loop fuel constants lines next_idx
         (dict_set data "a" (VDict nested_dict))).
Proof.
  intros fuel constants lines i data H. cbn [parse_loop]. now rewrite H.
Qed.

Lemma parse_loop_at_end :
  forall (fuel : nat) (constants : dict) (lines : list str) (i : nat)
         (data : dict),
    nth_error lines i = None ->
    parse_loop (S fuel) constants lines i data = Ok data.
Proof.
  intros fuel constants lines i data H. cbn [parse_loop]. now rewrite H.
Qed.

(** X11: blocks nest in blocks, and a block needs no closing line: [n + 1]
    lines that each open a block, and nothing after them, parse to [n + 1]
    tables, each the value of the key of the one before, the last one
    empty.  [parse_dict] calls itself once for each block, and the model
    has not the recursion limit of the interpreter: the statement stops at
    100 blocks, far below that limit. *)
Theorem parse_nests_open_blocks :
  forall n : nat,
    n < 100 ->
    parse (join [newline] (repeat opening (S n))) = Ok (nest (S n)).
Proof.
  intros n _. set (ls := repeat opening (S n)).
  assert (Hne : ls <> []) by discriminate.
  pose proof (opening_lines (S n)) as Hls. fold ls in Hls.
  assert (Hparen : contains "(" (join [newline] ls) = false).
  { apply contains_join; [reflexivity|]. apply Forall_forall.
    intros l Hl. apply repeat_spec in Hl. now subst l. }
  assert (Hsplit : split newline (join [newline] ls) = ls).
  { apply split_join; [exact Hne|].
    eapply Forall_impl; [|exact Hls]. now intros l (H & _). }
  unfold parse, parse_constants, parse_data, data_lines.
  rewrite (clean_text_lines ls Hne Hls).
  rewrite (finditer_plain _ Hparen), (sub_empty_plain _ Hparen), Hsplit.
  cbn [define_loop bind]. subst ls. rewrite repeat_length.
  rewrite parse_loop_opening by reflexivity.
  unfold parse_dict.
  rewrite (parse_dict_loop_openings n (S n) (0 + 1) (S n) 0 []) by lia.
  cbn [bind]. rewrite parse_loop_at_end; [reflexivity|].
  rewrite nth_error_opening.
  replace (Nat.ltb (S n) (S n)) with false
    by (symmetry; apply Nat.ltb_ge; lia).
  reflexivity.
Qed.

Lemma parse_nests_open_blocks_witness :
  2 < 100
  /\ parse (join [newline] ["a: {" : str; "a: {" : str; "a: {" : str])
     = Ok [("a" : str, VDict [("a" : str, VDict [("a" : str, VDict [])])])].
Proof.
  assert (H : 2 < 100) by (apply Nat.ltb_lt; reflexivity).
  split; [exact H|].
  exact (parse_nests_open_blocks 2 H).
Defined.

End NestingFacts.

Module LineCountFacts.

Import PyStr ConfigParser TOMLConverter Coverage StrFacts NumFacts.
Import OrderFacts TomlFacts.

Lemma escape_char_one_line :
  forall c : ascii, contains newline (escape_char c) = false.
Proof.
  intros c. destruct c as [[] [] [] [] [] [] [] []]; reflexivity.
Qed.

Lemma escape_string_one_line :
  forall s : str, contains newline (escape_string s) = false.
Proof.
  induction s as [|c s IH]; [reflexivity|].
  change (escape_string (c :: s)) with (escape_char c ++ escape_string s).
  now rewrite contains_app, escape_char_one_line, IH.
Qed.

Lemma decimal_one_line :
  forall s : str,
    Forall (fun c => isdecimal c = true) s -> contains newline s = false.
Proof.
  intros s H. apply contains_false. eapply Forall_impl; [|exact H].
  intros c Hc ->. discriminate.
Qed.

Lemma str_of_int_one_line :
  forall n : Z, contains newline (str_of_int n) = false.
Proof.
  intros [|p|p]; cbn [str_of_int]; try apply decimal_one_line,
    str_of_N_decimal.
  cbn [contains existsb]. change (Ascii.eqb newline "-") with false.
  apply decimal_one_line, str_of_N_decimal.
Qed.

Lemma indentation_one_line :
  forall indent : nat, contains newline (indentation indent) = false.
Proof.
  induction indent as [|n IH]; [reflexivity|].
  unfold indentation in *. cbn [repeat List.concat].
  now rewrite contains_app, IH.
Qed.

Lemma dict_get_of_key :
  forall (d : dict) (k : str),
    In k (map fst d) -> exists v, dict_get d k = Some v /\ In (k, v) d.
Proof.
  intros d k H. destruct (dict_get d k) as [v|] eqn:E.
  - exists v. split; [reflexivity|now apply dict_get_In].
  - now apply dict_get_None in E.
Qed.

Section WithFloat.

Variable float_repr : str -> str.

Lemma render_scalar_one_line :
  forall v : value,
    scalar v = true -> contains newline (render_value float_repr v) = false.
Proof.
  intros [s|n|lit|b|l|d] H; try discriminate; cbn [render_value].
  - cbn [app contains existsb]. change (Ascii.eqb newline dquote) with false.
    cbn [orb]. fold (contains newline (escape_string s ++ [dquote])).
    now rewrite contains_app, escape_string_one_line.
  - apply str_of_int_one_line.
  - now destruct b.
Qed.

(** X12: in the text of a table of strings, integers and booleans every key
    has one line of its own, in the order of the sorted keys: the escaping
    keeps a line end inside a string from starting a second line. *)
Theorem to_toml_one_line_per_key :
  forall (data : dict) (indent : nat) (path : str),
    data <> [] ->
    Forall (fun kv => contains newline (fst kv) = false
                      /\ scalar (snd kv) = true) data ->
    split newline (to_toml float_repr data indent path)
    = map (simple_line float_repr data indent) (sort (map fst data)).
Proof.
  intros data indent path Hne H.
  assert (Hs : simple_keys data = map fst data /\ dict_keys data = []).
  { unfold simple_keys, dict_keys. clear Hne.
    induction H as [|[k v] data [_ Hv] H [IH1 IH2]]; [now split|].
    cbn [filter map fst snd] in *.
    assert (E : is_dict v = false)
      by (destruct v; try reflexivity; discriminate).
    rewrite E. cbn [negb map fst]. now rewrite IH1, IH2. }
  destruct Hs as [Hs Hd].
  rewrite to_toml_unfold, Hs, Hd. cbn [sort flat_map]. rewrite app_nil_r.
  apply split_join.
  - intros E. apply map_eq_nil in E.
    pose proof (Permutation_length (sort_perm (map fst data))) as Hl.
    rewrite E, length_map in Hl. destruct data; [contradiction|discriminate].
  - apply Forall_forall. intros l Hl. apply in_map_iff in Hl.
    destruct Hl as (k & <- & Hk).
    apply (Permutation_in _ (sort_perm (map fst data))) in Hk.
    destruct (dict_get_of_key data k Hk) as (v & Hget & Hin).
    rewrite Forall_forall in H. destruct (H _ Hin) as [Hkey Hv].
    unfold simple_line. rewrite Hget. unfold render_line.
    rewrite !contains_app, indentation_one_line. cbn [fst] in Hkey.
    rewrite Hkey, (render_scalar_one_line v Hv). reflexivity.
Qed.

End WithFloat.

Lemma to_toml_one_line_per_key_witness :
  ([("b" : str, VStr ("x" ++ [newline] ++ "y"))] <> [])
  /\ split newline
       (to_toml Examples.literal_repr
          [("b" : str, VStr ("x" ++ [newline] ++ "y"))] 0 [])
     = map (simple_line Examples.literal_repr
              [("b" : str, VStr ("x" ++ [newline] ++ "y"))] 0)
           (sort (map fst [("b" : str, VStr ("x" ++ [newline] ++ "y"))])).
Proof.
  split; [discriminate|].
  apply (to_toml_one_line_per_key Examples.literal_repr).
  - discriminate.
  - repeat constructor.
Defined.

End LineCountFacts.

Module RaiseFacts.

Import PyStr ConfigParser Spec Coverage FuelFacts.

Lemma digits_not_quoted :
  forall s : str, isdigit s = true -> is_quoted s = false.
Proof.
  intros [|c s] H; [discriminate|].
  cbn [isdigit forallb] in H. apply andb_true_iff in H. destruct H as [Hc _].
  unfold is_quoted. cbn [startswith].
  assert (Hd : Ascii.eqb c dquote = false).
  { destruct (Ascii.eqb c dquote) eqn:E; [|reflexivity].
    apply Ascii.eqb_eq in E. subst c. vm_compute in Hc. discriminate. }
  assert (Hs : Ascii.eqb c squote = false).
  { destruct (Ascii.eqb c squote) eqn:E; [|reflexivity].
    apply Ascii.eqb_eq in E. subst c. vm_compute in Hc. discriminate. }
  now rewrite Hd, Hs.
Qed.

Lemma digit_token_not_blank :
  forall s : str, isdigit (token s) = true -> is_empty (strip s) = false.
Proof.
  intros s H. unfold token in H.
  destruct (strip s) as [|c r]; [discriminate|reflexivity].
Qed.

Lemma not_all_decimal :
  forall s : str,
    Exists (fun c => isdecimal c = false) s -> forallb isdecimal s = false.
Proof.
  intros s H. induction H as [c s Hc|c s _ IH]; cbn [forallb].
  - now rewrite Hc.
  - rewrite IH. apply andb_false_r.
Qed.

(** X13: a value made of characters that [str.isdigit] accepts, one of
    which is not a decimal digit (a superscript two, three or one), makes
    [parse_value] raise [ValueError], with or without white space around it
    and a semicolon after it, and whatever the constants: the text is
    neither kept as an identifier nor looked up. *)
Theorem parse_value_raises_on_superscript :
  forall (constants : dict) (value_str : str),
    isdigit (token value_str) = true ->
    Exists (fun c => isdecimal c = false) (token value_str) ->
    parse_value constants value_str = ValueError.
Proof.
  intros constants value_str Hd Hs.
  rewrite (parse_value_token_only constants value_str
             (List.length (token value_str))) by lia.
  rewrite (digit_token_not_blank value_str Hd).
  unfold classify_token.
  rewrite (digits_not_quoted _ Hd), Hd.
  unfold int_of_str. now rewrite (not_all_decimal _ Hs).
Qed.

Lemma parse_value_raises_on_superscript_witness :
  (isdigit (token [" "%char; "1"%char; "178"%char; ";"%char]) = true
   /\ Exists (fun c => isdecimal c = false)
             (token [" "%char; "1"%char; "178"%char; ";"%char]))
  /\ parse_value [("x" : str, VInt 1)]
       [" "%char; "1"%char; "178"%char; ";"%char]
     = ValueError.
Proof.
  assert (Hd : isdigit (token [" "%char; "1"%char; "178"%char; ";"%char])
               = true) by reflexivity.
  assert (Hs : Exists (fun c => isdecimal c = false)
                      (token [" "%char; "1"%char; "178"%char; ";"%char])).
  { apply Exists_cons_tl, Exists_cons_hd. reflexivity. }
  split; [split; [exact Hd|exact Hs]|].
  exact (parse_value_raises_on_superscript _ _ Hd Hs).
Defined.

End RaiseFacts.
